(** * util/geo.py: buffering of GeoJSON points and line strings

    A shallow embedding of [src/util/geo.py] and its properties.

    - Python floats are idealised as exact rationals ([Q]); comparisons
      and the test for a zero divisor are decided on them.
    - The functions of geopy, geographiclib and pyproj that the module
      calls, and [math.sqrt], are parameters of the development, bundled
      in the record [externals]; they are taken to return a number for
      every argument.  The reading of the shapefile is a parameter of the
      batch driver.
    - Dicts are records, and the value under ['coordinates'] is a tree of
      lists and positions, as in GeoJSON.  Exceptions are explicit: every
      function that can raise returns a [result].
    - The recursion of [geojson_linestring_to_poly] on the pieces of a
      split line is bounded by a fuel argument; the function itself runs
      with enough fuel ([geojson_linestring_to_poly_fuel],
      [geojson_linestring_to_poly_eq]). *)

From Stdlib Require Import QArith Qabs Qminmax Lqa.
From stdpp Require Import base list strings pretty.

Open Scope Q_scope.

(** ** Numbers *)

(** Python's [a < b] on floats; [a <= b] is [Qle_bool a b]. *)
Definition Qlt_bool (a b : Q) : bool := negb (Qle_bool b a).

(** ** Data model *)

(** A coordinate pair: [(lon, lat)] in degrees, or planar [(x, y)]. *)
Definition point : Type := Q * Q.

(** The value stored under the key ['coordinates'] of a GeoJSON geometry:
    a position, a (nested) list, or Python's [None]. *)
#[warnings="-register-all"]
Inductive coordinates : Type :=
| Null
| Position (p : point)
| Items (l : list coordinates).

(** A geometry dict [{"type": t, "coordinates": c}]. *)
Record geometry : Type := Geometry { gtype : string; gcoordinates : coordinates }.

(** The dicts the module handles: a feature (its properties are never
    read, and are empty on every feature the module builds) or a bare
    geometry. *)
Inductive obj : Type :=
| FeatureObj (geom : geometry)
| GeometryObj (geom : geometry).

(** ** Exceptions *)

Inductive exn : Type :=
| IndexError
| TypeError
| KeyError
| AttributeError
| ZeroDivisionError
| RecursionError
| Exception (msg : string).

Inductive result (A : Type) : Type :=
| Ok (a : A)
| Raise (e : exn).
Arguments Ok {A} a.
Arguments Raise {A} e.

Definition bind {A B} (r : result A) (k : A -> result B) : result B :=
  match r with
  | Ok a => k a
  | Raise e => Raise e
  end.

Notation "x <- r ;; k" := (bind r (fun x => k))
  (at level 100, r at next level, right associativity).

(** [for i in range(start, start + count): s = body(i, s)] *)
Fixpoint for_range {S : Type} (start count : nat)
    (body : nat -> S -> result S) (s : S) : result S :=
  match count with
  | O => Ok s
  | Datatypes.S k => s' <- body start s ;; for_range (Datatypes.S start) k body s'
  end.

(** [[f(x) for x in l]], left to right, stopping at the first exception. *)
Fixpoint comprehension {A B : Type} (f : A -> result B) (l : list A)
    : result (list B) :=
  match l with
  | [] => Ok []
  | x :: l' => y <- f x ;; ys <- comprehension f l' ;; Ok (y :: ys)
  end.

(** [l[i]], for the indices the module computes, none of them negative. *)
Definition index {A : Type} (l : list A) (i : nat) : result A :=
  match l !! i with
  | Some a => Ok a
  | None => Raise IndexError
  end.

(** [l[i] = v] *)
Definition assign {A : Type} (l : list A) (i : nat) (v : A) : result (list A) :=
  if decide (i < length l)%nat then Ok (<[i:=v]> l) else Raise IndexError.

(** [a / b] on floats. *)
Definition py_div (a b : Q) : result Q :=
  if Qeq_bool b 0 then Raise ZeroDivisionError else Ok (a / b).

(** ** Foreign functions *)

Record externals : Type := Externals {
  (** [geopy.distance.distance(a, b).meters], [a] and [b] as [(lat, lon)] *)
  geodesic_meters : point -> point -> Q;
  (** [Geodesic.WGS84.Inverse(lat1, lon1, lat2, lon2).get('azi2')] *)
  inverse_azi2 : Q -> Q -> Q -> Q -> Q;
  (** [WGS_TO_MERCATOR.transform(lon, lat)] *)
  WGS_TO_MERCATOR : Q -> Q -> point;
  (** [MERCATOR_TO_WGS.transform(x, y)] *)
  MERCATOR_TO_WGS : Q -> Q -> point;
  (** [math.sqrt] *)
  math_sqrt : Q -> Q
}.

(** ** Reading dicts *)

(** A list of positions as a value, e.g. the ['coordinates'] of a
    LineString. *)
Definition path_value (coords : list point) : coordinates :=
  Items (map Position coords).

Definition as_position (c : coordinates) : result point :=
  match c with
  | Position p => Ok p
  | _ => Raise TypeError
  end.

(** The typed view of a value used as a list of positions; a value of any
    other shape makes the Python code fail with a type error. *)
Definition as_path (c : coordinates) : result (list point) :=
  match c with
  | Items l => comprehension as_position l
  | _ => Raise TypeError
  end.

(** [obj.get('geometry')] on a dict the module has built. *)
Definition get_geometry (o : obj) : result geometry :=
  match o with
  | FeatureObj geom => Ok geom
  | GeometryObj _ => Raise AttributeError
  end.

(** [feature.get('geometry', feature).get('coordinates')] *)
Definition get_coords (feature : obj) : coordinates :=
  match feature with
  | FeatureObj geo => gcoordinates geo
  | GeometryObj geo => gcoordinates geo
  end.

(** [reversed(p)], consumed as a pair. *)
Definition reversed (p : point) : point := (p.2, p.1).

(** The dict [{"type": "LineString", "coordinates": coords}]. *)
Definition line_string (coords : list point) : obj :=
  GeometryObj (Geometry "LineString" (path_value coords)).

(** ** The module *)

Definition DEFAULT_WIDTH : Q := 25.
Definition DEFAULT_THRESHOLD : Q := 45.

Definition abs_angular_delta (a b : Q) : Q :=
  let delta := Qabs (a - b) in
  if Qle_bool delta 180 then delta else 360 - delta.

Section Geo.

Context (E : externals).

Definition angle_between_segments (p0 p1 p2 : point) : Q :=
  let '(p0lon, p0lat) := p0 in
  let '(p1lon, p1lat) := p1 in
  let '(p2lon, p2lat) := p2 in
  let azi_a := inverse_azi2 E p0lat p0lon p1lat p1lon in
  let azi_b := inverse_azi2 E p1lat p1lon p2lat p2lon in
  abs_angular_delta azi_a azi_b.

(** The body of the loop of [filter_small_segments], on the loop state
    [(new_coords, prev)]. *)
Definition filter_step (coords : list point) (min_length : Q) (i : nat)
    (st : list point * point) : result (list point * point) :=
  let '(new_coords, prev) := st in
  cur <- index coords i ;;
  let d := geodesic_meters E (reversed cur) (reversed prev) in
  if Qlt_bool d min_length then Ok (new_coords, prev)
  else Ok (new_coords ++ [cur], cur).

Definition filter_small_segments (linestring : obj) (min_length : Q)
    : result (list point) :=
  coords <- as_path (get_coords linestring) ;;
  if (length coords <? 2)%nat then Ok coords
  else
    c0 <- index coords 0 ;;
    st <- for_range 1 (length coords - 1)
            (filter_step coords min_length) ([c0], c0) ;;
    Ok st.1.

Definition point_to_square (coord : point) (width : Q) : result obj :=
  let half_width := width / 2 in
  let new_coords := [] in
  let '(cx, cy) := WGS_TO_MERCATOR E coord.1 coord.2 in
  let new_coords :=
    new_coords ++ [Position (MERCATOR_TO_WGS E (cx - half_width) (cy - half_width))] in
  let new_coords :=
    new_coords ++ [Position (MERCATOR_TO_WGS E (cx + half_width) (cy - half_width))] in
  let new_coords :=
    new_coords ++ [Position (MERCATOR_TO_WGS E (cx + half_width) (cy + half_width))] in
  let new_coords :=
    new_coords ++ [Position (MERCATOR_TO_WGS E (cx - half_width) (cy + half_width))] in
  first <- index new_coords 0 ;;
  let new_coords := new_coords ++ [first] in
  Ok (FeatureObj (Geometry "Polygon" (Items [Items new_coords]))).

(** The body of the loop of [explode_sharp_angles], on the loop state
    [(lines, cur_line)]. *)
Definition explode_step (coords : list point) (threshold : Q) (i : nat)
    (st : list (list point) * list point) : result (list (list point) * list point) :=
  let '(lines, cur_line) := st in
  a <- index coords (i - 2) ;;
  b <- index coords (i - 1) ;;
  c <- index coords i ;;
  let theta := angle_between_segments a b c in
  if Qle_bool theta threshold then Ok (lines, cur_line ++ [c])
  else
    let lines := lines ++ [cur_line] in
    let lines := lines ++ [[b]] in
    Ok (lines, [b; c]).

(** The loop state of [explode_sharp_angles] after [k] iterations, that
    is, before the iteration with [i = 2 + k]. *)
Definition explode_state (coords : list point) (threshold : Q) (k : nat)
    : result (list (list point) * list point) :=
  c0 <- index coords 0 ;;
  c1 <- index coords 1 ;;
  for_range 2 k (explode_step coords threshold) ([], [c0; c1]).

Definition explode_sharp_angles (coords : list point) (threshold : Q)
    : result (list (list point)) :=
  if (length coords <? 3)%nat then Ok [coords]
  else
    st <- explode_state coords threshold (length coords - 2) ;;
    Ok (st.1 ++ [st.2]).

Definition geojson_point_to_poly (point : obj) (width : Q) : result obj :=
  coord <- as_position (get_coords point) ;;
  point_to_square coord width.

(** Lines 142-149 and again 156-163: the segment from [c0] to [c1] in the
    plane, and its left-hand normal scaled to [half_width].  Returns the
    two projected end points and the normal. *)
Definition segment_normal (c0 c1 : point) (half_width : Q)
    : result (point * point * point) :=
  let '(p0x, p0y) := WGS_TO_MERCATOR E c0.1 c0.2 in
  let '(p1x, p1y) := WGS_TO_MERCATOR E c1.1 c1.2 in
  let dx := p1x - p0x in
  let dy := p1y - p0y in
  let mag := math_sqrt E (dx ^ 2 + dy ^ 2) in
  dx <- py_div dx mag ;;
  dy <- py_div dy mag ;;
  Ok ((p0x, p0y), (p1x, p1y), (- dy * half_width, dx * half_width)).

(** The body of the loop that fills the ring, on the array [new_coords]. *)
Definition ring_step (filtered_coords : list point) (half_width : Q) (n : nat)
    (i : nat) (new_coords : list coordinates) : result (list coordinates) :=
  c0 <- index filtered_coords (i - 1) ;;
  c1 <- index filtered_coords i ;;
  s <- segment_normal c0 c1 half_width ;;
  let '(_, (p1x, p1y), (nx, ny)) := s in
  new_coords <- assign new_coords i (Position (MERCATOR_TO_WGS E (p1x + nx) (p1y + ny))) ;;
  assign new_coords (n - i - 1) (Position (MERCATOR_TO_WGS E (p1x - nx) (p1y - ny))).

(** Lines 142-175: the ring around a line that was not split. *)
Definition line_ring (filtered_coords : list point) (half_width : Q) (n : nat)
    (new_coords : list coordinates) : result obj :=
  c0 <- index filtered_coords 0 ;;
  c1 <- index filtered_coords 1 ;;
  s <- segment_normal c0 c1 half_width ;;
  let '((p0x, p0y), _, (nx, ny)) := s in
  new_coords <- assign new_coords 0 (Position (MERCATOR_TO_WGS E (p0x + nx) (p0y + ny))) ;;
  new_coords <- assign new_coords (n - 1) (Position (MERCATOR_TO_WGS E (p0x - nx) (p0y - ny))) ;;
  first <- index new_coords 0 ;;
  new_coords <- assign new_coords n first ;;
  new_coords <- for_range 1 (length filtered_coords - 1)
                  (ring_step filtered_coords half_width n) new_coords ;;
  Ok (FeatureObj (Geometry "Polygon" (Items [Items new_coords]))).

(** [geojson_linestring_to_poly] calls itself on the pieces of a split
    line; [fuel] bounds the depth of these calls. *)
Fixpoint geojson_linestring_to_poly_rec (fuel : nat) (linestring : obj) (width : Q)
    : result obj :=
  match fuel with
  | O => Raise RecursionError
  | S fuel' =>
    filtered_coords <- filter_small_segments linestring width ;;
    let half_width := width / 2 in
    let n := (2 * length filtered_coords)%nat in
    let new_coords := replicate (n + 1) Null in
    if (length filtered_coords <? 2)%nat then
      c <- index filtered_coords 0 ;;
      point_to_square c width
    else
      lines <- explode_sharp_angles filtered_coords DEFAULT_THRESHOLD ;;
      if (1 <? length lines)%nat then
        let linestrings := map line_string lines in
        polys <- comprehension
                   (fun line => geojson_linestring_to_poly_rec fuel' line DEFAULT_WIDTH)
                   linestrings ;;
        cs <- comprehension
                (fun poly => g <- get_geometry poly ;; Ok (gcoordinates g)) polys ;;
        Ok (FeatureObj (Geometry "MultiPolygon" (Items cs)))
      else
        line_ring filtered_coords half_width n new_coords
  end.

(** The number of entries of a list value. *)
Definition items_length (c : coordinates) : nat :=
  match c with
  | Items l => length l
  | _ => O
  end.

(** Every nested call receives a strictly shorter line, so a depth of one
    more than the number of input points is never exceeded (see
    [geojson_linestring_to_poly_fuel]). *)
Definition geojson_linestring_to_poly (linestring : obj) (width : Q) : result obj :=
  geojson_linestring_to_poly_rec (S (items_length (get_coords linestring)))
    linestring width.

Definition convert_to_geojson_poly (feature : obj) (width : Q) : result obj :=
  match feature with
  | GeometryObj _ => Raise KeyError
  | FeatureObj geom =>
    let t := gtype geom in
    if String.eqb t "LineString" then
      geojson_linestring_to_poly (GeometryObj geom) width
    else if String.eqb t "Point" then
      geojson_point_to_poly (GeometryObj geom) width
    else if String.eqb t "Polygon" || String.eqb t "MultiPolygon" then
      Ok (GeometryObj geom)
    else Raise (Exception ("Unsupported type: " ++ t))
  end.

End Geo.

(** ** A flat test world

    A stand-in for the foreign functions on which the module can be run:
    the projection is the identity, distance is the taxicab distance,
    the azimuth of a move is read off an eight-point compass, and the
    square root is exact on squares of integers over a fixed denominator. *)

Definition taxicab (a b : point) : Q :=
  Qabs (a.1 - b.1) + Qabs (a.2 - b.2).

Definition compass (lat1 lon1 lat2 lon2 : Q) : Q :=
  let north := lat2 - lat1 in
  let east := lon2 - lon1 in
  match north ?= 0, east ?= 0 with
  | Gt, Eq => 0
  | Gt, Gt => 45
  | Eq, Gt => 90
  | Lt, Gt => 135
  | Lt, Eq => 180
  | Lt, Lt => -135
  | Eq, Lt => -90
  | Gt, Lt => -45
  | Eq, Eq => 0
  end.

Definition floor_sqrt (q : Q) : Q :=
  Z.sqrt (Qnum q * Zpos (Qden q)) # Qden q.

Definition flat : externals :=
  {| geodesic_meters := taxicab;
     inverse_azi2 := compass;
     WGS_TO_MERCATOR := fun lon lat => (lon, lat);
     MERCATOR_TO_WGS := fun x y => (x, y);
     math_sqrt := floor_sqrt |}.

(** ** Definitions that follow the specification *)

(** The walk of the specification: the last retained coordinate [last] and
    the coordinates [cs] still to be examined; a coordinate is retained
    exactly when its distance from [last] is at least [min_length]. *)
Fixpoint filter_walk (E : externals) (min_length : Q) (last : point) (cs : list point)
    : list point :=
  match cs with
  | [] => []
  | c :: cs' =>
    if Qle_bool min_length (geodesic_meters E (reversed c) (reversed last))
    then c :: filter_walk E min_length c cs'
    else filter_walk E min_length last cs'
  end.

(** The reading of the splitter in which the piece closed at a sharp
    vertex leaves that vertex out: whenever the loop reaches index [i] in
    state [(lines, cur_line)] and the turn at [v = coords[i - 1]] exceeds
    the threshold, [cur_line] does not contain [v], and the next state has
    emitted [cur_line] and [[v]] and started the piece [[v; c]]. *)
Definition closes_piece_without_sharp_vertex (E : externals)
    (coords : list point) (threshold : Q) : Prop :=
  forall (i : nat) (a v c : point) lines cur_line,
    (2 <= i)%nat ->
    coords !! (i - 2)%nat = Some a ->
    coords !! (i - 1)%nat = Some v ->
    coords !! i = Some c ->
    threshold < angle_between_segments E a v c ->
    explode_state E coords threshold (i - 2) = Ok (lines, cur_line) ->
    ~ In v cur_line
    /\ explode_state E coords threshold (i - 1)
       = Ok (lines ++ [cur_line; [v]], [v; c]).

(** [extends st st']: the pieces of [st'], the current one included,
    are those of [st] with the current one grown and further pieces
    added. *)
Definition extends (st st' : list (list point) * list point) : Prop :=
  exists more rest, st'.1 ++ [st'.2] = st.1 ++ (st.2 ++ more) :: rest.

(** The planar image of a geographic coordinate. *)
Definition planar (E : externals) (c : point) : point :=
  WGS_TO_MERCATOR E c.1 c.2.

(** The length of the planar segment from [c0] to [c1], as the code
    computes it. *)
Definition segment_mag (E : externals) (c0 c1 : point) : Q :=
  let p0 := planar E c0 in
  let p1 := planar E c1 in
  math_sqrt E ((p1.1 - p0.1) ^ 2 + (p1.2 - p0.2) ^ 2).

(** The unit normal of the segment from [c0] to [c1]: with [d] the planar
    direction [p1 - p0] scaled to unit length, the left-hand
    perpendicular [(-d.y, d.x)]. *)
Definition unit_normal (E : externals) (c0 c1 : point) : point :=
  let p0 := planar E c0 in
  let p1 := planar E c1 in
  let mag := segment_mag E c0 c1 in
  let d := ((p1.1 - p0.1) / mag, (p1.2 - p0.2) / mag) in
  (- d.2, d.1).

(** The coordinate [c] displaced in the plane by [+k] times [n], and by
    [-k] times [n], back in geographic coordinates. *)
Definition displaced (E : externals) (c n : point) (k : Q) : point :=
  let p := planar E c in
  MERCATOR_TO_WGS E (p.1 + n.1 * k) (p.2 + n.2 * k).

Definition displaced_back (E : externals) (c n : point) (k : Q) : point :=
  let p := planar E c in
  MERCATOR_TO_WGS E (p.1 - n.1 * k) (p.2 - n.2 * k).

(** A closed ring: at least four entries, the first and the last the same
    position. *)
Definition closed_ring (ring : list coordinates) : Prop :=
  (4 <= length ring)%nat
  /\ exists p, head ring = Some (Position p) /\ last ring = Some (Position p).

(** The geometries the buffering operations build: a polygon of one closed
    ring, or a multi-polygon that lists the coordinates of such
    geometries. *)
#[warnings="-register-all"]
Inductive buffered : geometry -> Prop :=
| buffered_polygon ring :
    closed_ring ring ->
    buffered (Geometry "Polygon" (Items [Items ring]))
| buffered_multi gs :
    Forall buffered gs ->
    buffered (Geometry "MultiPolygon" (Items (map gcoordinates gs))).

(** The exceptions of the Python runtime that the buffering code can
    meet: neither its own [Exception] nor the depth bound. *)
Definition builtin (e : exn) : Prop :=
  match e with
  | RecursionError | Exception _ => False
  | _ => True
  end.

(** The reading of the fewer-than-two-points branch as total: whatever
    the coordinate list, if the filter leaves fewer than two points the
    line buffer returns a polygon of one ring. *)
Definition short_line_becomes_square (E : externals) (coords : list point)
    (width : Q) : Prop :=
  forall fc,
    filter_small_segments E (line_string coords) width = Ok fc ->
    (length fc < 2)%nat ->
    exists ring,
      geojson_linestring_to_poly E (line_string coords) width
      = Ok (FeatureObj (Geometry "Polygon" (Items [Items ring]))).

(** The reading of the ring in which an interior vertex [b], between the
    segments from [a] and to [c], is offset forward along the normal of
    the segment that ends at it and backward along the normal of the
    segment that starts at it. *)
Definition backward_offset_along_next_segment (E : externals) (linestring : obj)
    (width : Q) : Prop :=
  forall fc ring (i : nat) (a b c : point),
    filter_small_segments E linestring width = Ok fc ->
    geojson_linestring_to_poly E linestring width
    = Ok (FeatureObj (Geometry "Polygon" (Items [Items ring]))) ->
    (1 <= i)%nat ->
    fc !! (i - 1)%nat = Some a -> fc !! i = Some b -> fc !! (i + 1)%nat = Some c ->
    ring !! i = Some (Position (displaced E b (unit_normal E a b) (width / 2)))
    /\ ring !! (2 * length fc - i - 1)%nat
       = Some (Position (displaced_back E b (unit_normal E b c) (width / 2))).

(** ** The batch driver *)

(** [for x in l: s = body(x, s)] *)
Fixpoint for_each {A S : Type} (l : list A) (body : A -> S -> result S) (s : S)
    : result S :=
  match l with
  | [] => Ok s
  | x :: l' => s' <- body x s ;; for_each l' body s'
  end.

Section Batch.

Context (E : externals).

(** [shapefile.Reader(file_path).__geo_interface__.get('features')], the
    reading of the shapefile: a parameter, like the other foreign
    functions. *)
Context (shapefile_features : string -> result (list obj)).

(** Returns the lines printed on standard output and the outcome; the
    progress bar that [tqdm] draws on standard error is left out. *)
Definition transform_shapefile_to_geojson_polygons (file_path : string)
    (width : Q) (verbose : bool) : list string * result (list obj) :=
  let out :=
    if verbose then [("reading " ++ file_path ++ " as geojson...")%string]
    else [] in
  match shapefile_features file_path with
  | Raise e => (out, Raise e)
  | Ok features =>
    let out :=
      if verbose
      then out ++ [("converting " ++ pretty (length features)
                      ++ " features to polygons...")%string]
      else out in
    if verbose then
      (out,
       for_each features
         (fun f polygons =>
            poly <- convert_to_geojson_poly E f width ;; Ok (polygons ++ [poly]))
         [])
    else
      (out, comprehension (fun f => convert_to_geojson_poly E f width) features)
  end.

End Batch.

(** ** Predicates on coordinate lists *)

(** Every two consecutive entries of [l] are related by [R]. *)
Fixpoint chain {A : Type} (R : A -> A -> Prop) (l : list A) : Prop :=
  match l with
  | [] => True
  | a :: l' =>
    match l' with
    | b :: _ => R a b
    | [] => True
    end /\ chain R l'
  end.

(** [b], met after [a], is at least [min_length] away from it, as the
    filter measures it. *)
Definition far (E : externals) (min_length : Q) (a b : point) : Prop :=
  min_length <= geodesic_meters E (reversed b) (reversed a).

(** No turn of the line [l] exceeds the threshold. *)
Fixpoint gentle (E : externals) (threshold : Q) (l : list point) : Prop :=
  match l with
  | [] => True
  | a :: l' =>
    match l' with
    | b :: c :: _ => angle_between_segments E a b c <= threshold
    | _ => True
    end /\ gentle E threshold l'
  end.

Definition is_position (c : coordinates) : Prop :=
  match c with
  | Position _ => True
  | _ => False
  end.

(** The number of turns of the line [l] that exceed the threshold. *)
Fixpoint sharp_turns (E : externals) (threshold : Q) (l : list point) : nat :=
  match l with
  | [] => 0
  | a :: l' =>
    match l' with
    | b :: c :: _ =>
      if Qle_bool (angle_between_segments E a b c) threshold then 0 else 1
    | _ => 0
    end + sharp_turns E threshold l'
  end.

(** Python's two-argument [min]: the second argument only when it is
    strictly smaller. *)
Definition py_min (x y : Q) : Q := if Qlt_bool y x then y else x.

(** * Theorems *)

(** ** Comparisons *)

Lemma Qlt_bool_true a b : Qlt_bool a b = true <-> a < b.
Proof.
  unfold Qlt_bool. rewrite negb_true_iff.
  split.
  - intros H. apply Qnot_le_lt. intros Hle.
    apply Qle_bool_iff in Hle. congruence.
  - intros H. destruct (Qle_bool b a) eqn:E; [|reflexivity].
    apply Qle_bool_iff in E. exfalso. apply (Qlt_not_le _ _ H E).
Qed.

Lemma Qle_bool_false a b : Qle_bool a b = false <-> b < a.
Proof.
  rewrite <- Qlt_bool_true. unfold Qlt_bool.
  destruct (Qle_bool a b); simpl; intuition congruence.
Qed.

Lemma Qlt_bool_false a b : Qlt_bool a b = false <-> b <= a.
Proof.
  unfold Qlt_bool. rewrite negb_false_iff. apply Qle_bool_iff.
Qed.


(** C9: for bearings [a] and [b] in [0,360), [abs_angular_delta a b] is
    [min(|a-b|, 360-|a-b|)] (as Python's [min] computes it, and as the
    minimum of the two rationals), lies in [0,180], and is symmetric. *)
Theorem abs_angular_delta_spec (a b : Q) :
  0 <= a < 360 -> 0 <= b < 360 ->
  abs_angular_delta a b = py_min (Qabs (a - b)) (360 - Qabs (a - b))
  /\ abs_angular_delta a b == Qmin (Qabs (a - b)) (360 - Qabs (a - b))
  /\ 0 <= abs_angular_delta a b <= 180
  /\ abs_angular_delta a b = abs_angular_delta b a.
Proof.
  intros Ha Hb.
  assert (Hsym : abs_angular_delta a b = abs_angular_delta b a)
    by (unfold abs_angular_delta; now rewrite (Qabs_Qminus b a)).
  split; [|split; [|split; [|exact Hsym]]]; unfold abs_angular_delta, py_min.
  all: pose proof (Qabs_nonneg (a - b)) as Hd0.
  all: assert (Hd : Qabs (a - b) < 360) by (apply Qabs_case; intros; lra).
  all: destruct (Qle_bool (Qabs (a - b)) 180) eqn:Hab;
    [apply Qle_bool_iff in Hab | apply Qle_bool_false in Hab]; try lra.
  - destruct (Qlt_bool _ _) eqn:Hm;
      [apply Qlt_bool_true in Hm; lra | reflexivity].
  - destruct (Qlt_bool _ _) eqn:Hm;
      [reflexivity | apply Qlt_bool_false in Hm; lra].
  - symmetry. apply Q.min_l. lra.
  - symmetry. apply Q.min_r. lra.
Qed.

(** Bearings on either side of north. *)
Lemma abs_angular_delta_spec_witness :
  abs_angular_delta 350 10 = py_min (Qabs (350 - 10)) (360 - Qabs (350 - 10))
  /\ abs_angular_delta 350 10 == Qmin (Qabs (350 - 10)) (360 - Qabs (350 - 10))
  /\ 0 <= abs_angular_delta 350 10 <= 180
  /\ abs_angular_delta 350 10 = abs_angular_delta 10 350.
Proof.
  apply (abs_angular_delta_spec 350 10); (split; [discriminate | reflexivity]).
Defined.

(** ** The exception monad and loops *)

Lemma bind_Ok {A B} (r : result A) (k : A -> result B) (b : B) :
  (x <- r ;; k x) = Ok b <-> exists a, r = Ok a /\ k a = Ok b.
Proof.
  destruct r as [a|e]; simpl.
  - split; [eauto | now intros (a' & [= ->] & H)].
  - split; [discriminate | now intros (a' & [=] & _)].
Qed.

Lemma for_range_S {S} start count (body : nat -> S -> result S) s :
  for_range start (Datatypes.S count) body s =
  (s' <- body start s ;; for_range (Datatypes.S start) count body s').
Proof. reflexivity. Qed.

Lemma for_range_snoc {S} start count (body : nat -> S -> result S) s :
  for_range start (Datatypes.S count) body s =
  (s' <- for_range start count body s ;; body (start + count)%nat s').
Proof.
  revert start s. induction count as [|k IH]; intros start s.
  - simpl. rewrite Nat.add_0_r. now destruct (body start s).
  - rewrite for_range_S, (for_range_S start k).
    destruct (body start s) as [s1|e]; cbn [bind]; [|reflexivity].
    rewrite IH.
    now replace (Datatypes.S start + k)%nat with (start + Datatypes.S k)%nat by lia.
Qed.

Lemma index_Ok {A} (l : list A) i a : index l i = Ok a <-> l !! i = Some a.
Proof.
  unfold index. destruct (l !! i); split; congruence.
Qed.

Lemma index_lookup {A} (l : list A) i a : l !! i = Some a -> index l i = Ok a.
Proof. apply index_Ok. Qed.

Lemma assign_Ok {A} (l : list A) i v :
  (i < length l)%nat -> assign l i v = Ok (<[i:=v]> l).
Proof. intros H. unfold assign. now rewrite decide_True. Qed.

Lemma comprehension_as_position (coords : list point) :
  comprehension as_position (map Position coords) = Ok coords.
Proof.
  induction coords as [|c cs IH]; [reflexivity|].
  simpl. now rewrite IH.
Qed.

Lemma as_path_value (coords : list point) : as_path (path_value coords) = Ok coords.
Proof. apply comprehension_as_position. Qed.

Lemma bind_Raise {A B} (r : result A) (k : A -> result B) (e : exn) :
  (x <- r ;; k x) = Raise e ->
  r = Raise e \/ exists a, r = Ok a /\ k a = Raise e.
Proof. destruct r as [a|e']; simpl; [eauto | intros [= ->]; now left]. Qed.

Lemma index_Raise {A} (l : list A) i e : index l i = Raise e -> e = IndexError.
Proof. unfold index. destruct (l !! i); congruence. Qed.

Lemma assign_Raise {A} (l : list A) i v e : assign l i v = Raise e -> e = IndexError.
Proof. unfold assign. destruct (decide _); congruence. Qed.

Lemma for_range_Raise {S} (P : exn -> Prop) start count
    (body : nat -> S -> result S) s e :
  (forall i s' e', body i s' = Raise e' -> P e') ->
  for_range start count body s = Raise e -> P e.
Proof.
  intros Hbody. revert start s. induction count as [|k IH]; intros start s H.
  - discriminate.
  - rewrite for_range_S in H. apply bind_Raise in H as [H | (s1 & _ & H)]; eauto.
Qed.

Lemma comprehension_Ok {A B} (f : A -> result B) (l : list A) (ys : list B) :
  comprehension f l = Ok ys -> Forall2 (fun x y => f x = Ok y) l ys.
Proof.
  revert ys. induction l as [|x l IH]; intros ys H.
  - injection H as <-. constructor.
  - simpl in H. apply bind_Ok in H as (y & Hy & H).
    apply bind_Ok in H as (ys' & Hys & H). injection H as <-.
    constructor; auto.
Qed.

Lemma comprehension_Raise {A B} (f : A -> result B) (l : list A) (e : exn) :
  comprehension f l = Raise e -> exists x, In x l /\ f x = Raise e.
Proof.
  induction l as [|x l IH]; [discriminate|]. simpl. intros H.
  apply bind_Raise in H as [H | (y & _ & H)]; [exists x; auto|].
  apply bind_Raise in H as [H | (ys & _ & H)]; [|discriminate].
  destruct (IH H) as (x' & Hin & Hx'). exists x'. auto.
Qed.

Lemma comprehension_ext {A B} (f g : A -> result B) (l : list A) :
  (forall x, In x l -> f x = g x) -> comprehension f l = comprehension g l.
Proof.
  induction l as [|x l IH]; intros H; [reflexivity|]. simpl.
  rewrite (H x) by now left. rewrite IH; [reflexivity|].
  intros y Hy. apply H. now right.
Qed.

Lemma as_position_inv (c : coordinates) (p : point) :
  as_position c = Ok p -> c = Position p.
Proof. destruct c; simpl; congruence. Qed.

Lemma as_path_inv (c : coordinates) (coords : list point) :
  as_path c = Ok coords -> c = path_value coords.
Proof.
  destruct c as [| |l]; [discriminate..|]. simpl. intros H.
  apply comprehension_Ok in H. unfold path_value. f_equal.
  induction H as [|x y l ys Hxy _ IH]; [reflexivity|].
  simpl. now rewrite (as_position_inv _ _ Hxy), IH.
Qed.

Lemma as_path_Raise (c : coordinates) (e : exn) :
  as_path c = Raise e -> e = TypeError.
Proof.
  destruct c as [| |l]; simpl; [congruence..|]. intros H.
  apply comprehension_Raise in H as (x & _ & H). destruct x; simpl in H; congruence.
Qed.

(** ** The segment filter *)

Section Filter.

Context (E : externals).

Lemma filter_loop (min_length : Q) (pre rest acc : list point) (prev : point) :
  exists last,
    for_range (length pre) (length rest)
      (filter_step E (pre ++ rest) min_length) (acc, prev)
    = Ok (acc ++ filter_walk E min_length prev rest, last).
Proof.
  revert pre acc prev. induction rest as [|c rest IH]; intros pre acc prev.
  - exists prev. simpl. now rewrite app_nil_r.
  - simpl. unfold filter_step at 1.
    rewrite (index_lookup _ _ c) by (now rewrite list_lookup_middle).
    simpl. unfold Qlt_bool.
    destruct (Qle_bool min_length _); simpl.
    + destruct (IH (pre ++ [c]) (acc ++ [c]) c) as [last Hl].
      rewrite length_app, Nat.add_1_r, <- !app_assoc in Hl. simpl in Hl.
      exists last. exact Hl.
    + destruct (IH (pre ++ [c]) acc prev) as [last Hl].
      rewrite length_app, Nat.add_1_r, <- !app_assoc in Hl. simpl in Hl.
      exists last. exact Hl.
Qed.

Lemma filter_small_segments_eq (linestring : obj) (coords : list point)
    (min_length : Q) :
  get_coords linestring = path_value coords ->
  filter_small_segments E linestring min_length =
  Ok match coords with
     | [] => []
     | c0 :: rest => c0 :: filter_walk E min_length c0 rest
     end.
Proof.
  intros Hc. unfold filter_small_segments. rewrite Hc.
  rewrite as_path_value. cbn [bind].
  destruct coords as [|c0 [|c1 rest]]; [reflexivity..|].
  change (length (c0 :: c1 :: rest) <? 2)%nat with false. cbv iota.
  change (index (c0 :: c1 :: rest) 0) with (Ok c0). cbn [bind].
  destruct (filter_loop min_length [c0] (c1 :: rest) [c0] c0) as [last Hl].
  cbn [length Nat.sub app] in *. now rewrite Hl.
Qed.

Lemma filter_walk_sublist (min_length : Q) (last : point) (cs : list point) :
  sublist (filter_walk E min_length last cs) cs.
Proof.
  revert last. induction cs as [|c cs IH]; intros last; simpl.
  - constructor.
  - destruct (Qle_bool _ _); [apply sublist_skip | apply sublist_cons]; apply IH.
Qed.

Lemma filter_walk_length (min_length : Q) (last : point) (cs : list point) :
  (length (filter_walk E min_length last cs) <= length cs)%nat.
Proof. apply sublist_length, filter_walk_sublist. Qed.

Lemma filter_small_segments_inv (linestring : obj) (min_length : Q)
    (fc : list point) :
  filter_small_segments E linestring min_length = Ok fc ->
  exists coords,
    get_coords linestring = path_value coords
    /\ fc = match coords with
            | [] => []
            | c0 :: rest => c0 :: filter_walk E min_length c0 rest
            end
    /\ (length fc <= length coords)%nat.
Proof.
  intros H. destruct (as_path (get_coords linestring)) as [coords|e] eqn:Hp.
  - apply as_path_inv in Hp. exists coords. split; [assumption|].
    rewrite (filter_small_segments_eq _ coords _ Hp) in H. injection H as <-.
    split; [reflexivity|]. destruct coords as [|c0 rest]; [reflexivity|].
    simpl. pose proof (filter_walk_length min_length c0 rest). lia.
  - unfold filter_small_segments in H. now rewrite Hp in H.
Qed.

Lemma filter_small_segments_Raise (linestring : obj) (min_length : Q) (e : exn) :
  filter_small_segments E linestring min_length = Raise e -> e = TypeError.
Proof.
  intros H. destruct (as_path (get_coords linestring)) as [coords|e'] eqn:Hp.
  - apply as_path_inv in Hp.
    now rewrite (filter_small_segments_eq _ coords _ Hp) in H.
  - unfold filter_small_segments in H. rewrite Hp in H. injection H as <-.
    eapply as_path_Raise; eauto.
Qed.

(** C6: on fewer than two points the filter returns its input; otherwise
    it returns the first coordinate followed by the coordinates the walk
    of the specification retains (those at distance at least [min_length]
    from the last retained one), a subsequence of the input in the
    original order that starts with the first coordinate. *)
Theorem filter_small_segments_spec (linestring : obj) (coords : list point)
    (min_length : Q) :
  get_coords linestring = path_value coords ->
  exists out,
    filter_small_segments E linestring min_length = Ok out
    /\ ((length coords < 2)%nat -> out = coords)
    /\ (forall c0 rest, coords = c0 :: rest ->
          out = c0 :: filter_walk E min_length c0 rest)
    /\ sublist out coords
    /\ head out = head coords.
Proof.
  intros Hc. eexists. split; [exact (filter_small_segments_eq _ coords _ Hc)|].
  destruct coords as [|c0 rest].
  - repeat split; [intros ? ? [=] | constructor].
  - repeat split.
    + destruct rest; [reflexivity | simpl; lia].
    + now intros ? ? [= <- <-].
    + apply sublist_skip, filter_walk_sublist.
Qed.

End Filter.

(** A line of three points, one of them dropped by the filter. *)
Lemma filter_small_segments_spec_witness :
  get_coords (line_string [(0, 0); (0, 5); (0, 50)])
    = path_value [(0, 0); (0, 5); (0, 50)]
  /\ exists out,
    filter_small_segments flat (line_string [(0, 0); (0, 5); (0, 50)]) 10 = Ok out
    /\ out = [(0, 0); (0, 50)].
Proof.
  split; [reflexivity|].
  destruct (filter_small_segments_spec flat
              (line_string [(0, 0); (0, 5); (0, 50)])
              [(0, 0); (0, 5); (0, 50)] 10 eq_refl)
    as (out & Hout & _ & Hwalk & _).
  exists out. split; [exact Hout|].
  rewrite (Hwalk _ _ eq_refl). reflexivity.
Defined.

(** ** The sharp-angle splitter *)

Lemma for_range_add {S} start k j (body : nat -> S -> result S) s :
  for_range start (k + j) body s =
  (s' <- for_range start k body s ;; for_range (start + k) j body s').
Proof.
  revert start s. induction k as [|k IH]; intros start s.
  - simpl. now rewrite Nat.add_0_r.
  - change (Datatypes.S k + j)%nat with (Datatypes.S (k + j)).
    rewrite !for_range_S.
    destruct (body start s) as [s1|e]; cbn [bind]; [|reflexivity].
    rewrite IH. now replace (Datatypes.S start + k)%nat with (start + Datatypes.S k)%nat by lia.
Qed.

Section Explode.

Context (E : externals).

(** One iteration at index [2 + k], from a state whose current piece ends
    with the two coordinates before that index. *)
Lemma explode_step_at (coords : list point) (threshold : Q) (k : nat)
    (a b c : point) lines pre :
  coords !! k = Some a ->
  coords !! Datatypes.S k = Some b ->
  coords !! Datatypes.S (Datatypes.S k) = Some c ->
  explode_step E coords threshold (2 + k) (lines, pre ++ [a; b]) =
  if Qle_bool (angle_between_segments E a b c) threshold
  then Ok (lines, (pre ++ [a]) ++ [b; c])
  else Ok (lines ++ [pre ++ [a; b]; [b]], [b; c]).
Proof.
  intros Ha Hb Hc. unfold explode_step.
  replace (2 + k - 2)%nat with k by lia.
  replace (2 + k - 1)%nat with (Datatypes.S k) by lia.
  rewrite (index_lookup _ _ _ Ha), (index_lookup _ _ _ Hb).
  change (2 + k)%nat with (Datatypes.S (Datatypes.S k)).
  rewrite (index_lookup _ _ _ Hc). cbn [bind].
  destruct (Qle_bool _ _); f_equal; f_equal.
  - now rewrite <- !app_assoc.
  - now rewrite <- app_assoc.
Qed.

(** Before the iteration at index [2 + k] the current piece ends with
    [coords[k]] and [coords[k + 1]]; in particular the loop never fails. *)
Lemma explode_state_ends (coords : list point) (threshold : Q) (k : nat)
    (a b : point) :
  coords !! k = Some a ->
  coords !! Datatypes.S k = Some b ->
  exists lines pre,
    explode_state E coords threshold k = Ok (lines, pre ++ [a; b]).
Proof.
  revert a b. induction k as [|k IH]; intros a b Ha Hb.
  - exists [], []. unfold explode_state.
    now rewrite (index_lookup _ _ _ Ha), (index_lookup _ _ _ Hb).
  - assert (is_Some (coords !! k)) as [z Hz]
      by (apply lookup_lt_is_Some; apply lookup_lt_Some in Ha; lia).
    destruct (IH z a Hz Ha) as (lines & pre & Hst).
    unfold explode_state in *.
    destruct (index coords 0) as [c0|]; [|discriminate].
    destruct (index coords 1) as [c1|]; [|discriminate].
    cbn [bind] in *. rewrite for_range_snoc, Hst. cbn [bind].
    rewrite (explode_step_at _ _ _ z a b) by assumption.
    destruct (Qle_bool _ _); [exists lines, (pre ++ [z]) | exists (lines ++ [pre ++ [z; a]; [a]]), []];
      reflexivity.
Qed.

Lemma extends_refl st : extends st st.
Proof. exists [], []. now rewrite app_nil_r. Qed.

Lemma explode_step_extends coords threshold i st0 st st' :
  extends st0 st ->
  explode_step E coords threshold i st = Ok st' ->
  extends st0 st'.
Proof.
  intros (more & rest & Hext) Hstep.
  destruct st as [lines cur]. unfold explode_step in Hstep.
  apply bind_Ok in Hstep as (a & _ & Hstep).
  apply bind_Ok in Hstep as (b & _ & Hstep).
  apply bind_Ok in Hstep as (c & _ & Hstep).
  cbn [fst snd] in Hext.
  destruct (Qle_bool _ _); injection Hstep as <-; unfold extends; cbn [fst snd].
  - destruct rest as [|r rest _] using rev_ind.
    + apply app_inj_tail in Hext as [-> ->].
      exists (more ++ [c]), []. now rewrite <- app_assoc.
    + change ((st0.2 ++ more) :: rest ++ [r])
        with (((st0.2 ++ more) :: rest) ++ [r]) in Hext.
      rewrite app_assoc in Hext. apply app_inj_tail in Hext as [-> ->].
      exists more, (rest ++ [r ++ [c]]). now rewrite <- app_assoc.
  - exists more, (rest ++ [[b]; [b; c]]).
    rewrite Hext, <- !app_assoc. reflexivity.
Qed.

Lemma for_range_extends coords threshold start count st0 st st' :
  extends st0 st ->
  for_range start count (explode_step E coords threshold) st = Ok st' ->
  extends st0 st'.
Proof.
  revert start st. induction count as [|k IH]; intros start st Hext Hrun.
  - now injection Hrun as <-.
  - rewrite for_range_S in Hrun. apply bind_Ok in Hrun as (s1 & Hs1 & Hrun).
    eapply IH; [|exact Hrun]. eapply explode_step_extends; eauto.
Qed.

Lemma explode_state_add coords threshold k j :
  explode_state E coords threshold (k + j) =
  (st <- explode_state E coords threshold k ;;
   for_range (2 + k) j (explode_step E coords threshold) st).
Proof.
  unfold explode_state.
  destruct (index coords 0); [|reflexivity].
  destruct (index coords 1); [|reflexivity].
  cbn [bind]. apply for_range_add.
Qed.

(** The splitter always returns. *)
Lemma explode_sharp_angles_Ok (coords : list point) (threshold : Q) :
  exists lines, explode_sharp_angles E coords threshold = Ok lines.
Proof.
  unfold explode_sharp_angles.
  destruct (length coords <? 3)%nat eqn:Hlen; [eauto|].
  apply Nat.ltb_ge in Hlen.
  assert (is_Some (coords !! (length coords - 2)%nat)) as [y Hy]
    by (apply lookup_lt_is_Some; lia).
  assert (is_Some (coords !! Datatypes.S (length coords - 2))) as [z Hz]
    by (apply lookup_lt_is_Some; lia).
  destruct (explode_state_ends coords threshold _ y z Hy Hz) as (l & p & ->).
  cbn [bind]. eauto.
Qed.

(** After [k] iterations no emitted piece has more than [k + 1] points,
    and the current piece has [k + 2] points only if nothing was emitted. *)
Lemma explode_state_lengths (coords : list point) (threshold : Q) (k : nat)
    lines cur :
  explode_state E coords threshold k = Ok (lines, cur) ->
  Forall (fun l => length l <= k + 1)%nat lines
  /\ (length cur <= k + 2)%nat
  /\ (lines <> [] -> length cur <= k + 1)%nat.
Proof.
  revert lines cur. induction k as [|k IH]; intros lines cur H.
  - unfold explode_state in H.
    apply bind_Ok in H as (c0 & _ & H). apply bind_Ok in H as (c1 & _ & H).
    injection H as <- <-. repeat split; [constructor|simpl; lia|congruence].
  - replace (Datatypes.S k) with (k + 1)%nat in H by lia.
    rewrite explode_state_add in H. apply bind_Ok in H as ([l0 c0] & H0 & H).
    destruct (IH _ _ H0) as (Hl & Hc & Hne).
    rewrite for_range_S in H. apply bind_Ok in H as (st & Hstep & H).
    injection H as ->. unfold explode_step in Hstep.
    apply bind_Ok in Hstep as (a & _ & Hstep).
    apply bind_Ok in Hstep as (b & _ & Hstep).
    apply bind_Ok in Hstep as (c & _ & Hstep).
    destruct (Qle_bool _ _); injection Hstep as <- <-.
    + repeat split.
      * eapply Forall_impl; [exact Hl|]. simpl. intros; lia.
      * rewrite length_app. simpl. lia.
      * intros Hnil. rewrite length_app. simpl. specialize (Hne Hnil). lia.
    + repeat split.
      * rewrite <- app_assoc. apply Forall_app. split.
        -- eapply Forall_impl; [exact Hl|]. simpl. intros; lia.
        -- constructor; [lia|]. constructor; [simpl; lia|]. constructor.
      * simpl. lia.
      * simpl. lia.
Qed.

(** When the splitter returns more than one piece, every piece is
    strictly shorter than the input. *)
Lemma explode_sharp_angles_shorter (coords : list point) (threshold : Q) lines :
  explode_sharp_angles E coords threshold = Ok lines ->
  (1 < length lines)%nat ->
  Forall (fun l => length l < length coords)%nat lines.
Proof.
  unfold explode_sharp_angles.
  destruct (length coords <? 3)%nat eqn:Hlen.
  - intros [= <-]. simpl. lia.
  - apply Nat.ltb_ge in Hlen. intros H Hmany.
    apply bind_Ok in H as ([l c] & Hst & H). injection H as <-.
    cbn [fst snd] in *.
    apply explode_state_lengths in Hst as (Hl & Hc & Hne).
    assert (l <> []) by (intros ->; simpl in Hmany; lia).
    apply Forall_app. split.
    + eapply Forall_impl; [exact Hl|]. simpl. intros; lia.
    + constructor; [|constructor]. specialize (Hne ltac:(assumption)). lia.
Qed.

(** A line without a sharp turn, or too short to have one, stays one
    piece: the input itself. *)
Lemma explode_sharp_angles_single (coords : list point) (threshold : Q) lines :
  explode_sharp_angles E coords threshold = Ok lines ->
  (length lines <= 1)%nat ->
  lines = [coords].
Proof.
  intros H Hone.
  destruct (explode_sharp_angles_Ok coords threshold) as [l' Hl'].
  unfold explode_sharp_angles in H.
  destruct (length coords <? 3)%nat eqn:Hlen; [congruence|].
  apply Nat.ltb_ge in Hlen.
  apply bind_Ok in H as ([l c] & Hst & H). injection H as <-.
  cbn [fst snd] in *. destruct l as [|x l].
  2:{ simpl in Hone. rewrite length_app in Hone. simpl in Hone. lia. }
  simpl. f_equal. clear Hone Hl'.
  assert (Hgen : forall k, (k + 2 <= length coords)%nat -> forall l c,
            explode_state E coords threshold k = Ok (l, c) ->
            l = [] -> c = take (k + 2) coords).
  { clear. induction k as [|k IH]; intros Hk l c H ->.
    - unfold explode_state in H.
      apply bind_Ok in H as (c0 & H0 & H). apply bind_Ok in H as (c1 & H1 & H).
      injection H as <-. apply index_Ok in H0, H1.
      destruct coords as [|x [|y coords]]; try discriminate.
      injection H0 as <-. injection H1 as <-. simpl. now rewrite take_0.
    - replace (Datatypes.S k) with (k + 1)%nat in H by lia.
      rewrite explode_state_add in H. apply bind_Ok in H as ([l0 c0] & H0 & H).
      rewrite for_range_S in H. apply bind_Ok in H as (st & Hstep & H).
      injection H as ->. unfold explode_step in Hstep.
      apply bind_Ok in Hstep as (a & _ & Hstep).
      apply bind_Ok in Hstep as (b & _ & Hstep).
      apply bind_Ok in Hstep as (z & Hz & Hstep). apply index_Ok in Hz.
      destruct (Qle_bool _ _); injection Hstep as Hl <-.
      + subst l0. rewrite (IH ltac:(lia) _ _ H0 eq_refl).
        replace (Datatypes.S k + 2)%nat with (Datatypes.S (k + 2)) by lia.
        replace (2 + k)%nat with (k + 2)%nat in Hz by lia.
        now rewrite (take_S_r _ _ _ Hz).
      + destruct l0; discriminate. }
  rewrite (Hgen (length coords - 2)%nat ltac:(lia) _ _ Hst eq_refl).
  replace (length coords - 2 + 2)%nat with (length coords) by lia.
  apply firstn_all.
Qed.

(** A line on which no turn exceeds the threshold stays one piece. *)
Lemma explode_sharp_angles_gentle (coords : list point) (threshold : Q) :
  (forall i a b c,
     coords !! i = Some a -> coords !! Datatypes.S i = Some b ->
     coords !! Datatypes.S (Datatypes.S i) = Some c ->
     angle_between_segments E a b c <= threshold) ->
  explode_sharp_angles E coords threshold = Ok [coords].
Proof.
  intros Hgentle. unfold explode_sharp_angles.
  destruct (length coords <? 3)%nat eqn:Hlen; [reflexivity|].
  apply Nat.ltb_ge in Hlen.
  assert (Hgen : forall k, (k + 2 <= length coords)%nat ->
            explode_state E coords threshold k = Ok ([], take (k + 2) coords)).
  { induction k as [|k IH]; intros Hk.
    - destruct coords as [|x [|y l]]; simpl in Hlen; try lia. reflexivity.
    - assert (is_Some (coords !! k)) as [a Ha] by (apply lookup_lt_is_Some; lia).
      assert (is_Some (coords !! Datatypes.S k)) as [b Hb]
        by (apply lookup_lt_is_Some; lia).
      assert (is_Some (coords !! Datatypes.S (Datatypes.S k))) as [c Hc]
        by (apply lookup_lt_is_Some; lia).
      replace (Datatypes.S k) with (k + 1)%nat at 1 by lia.
      rewrite explode_state_add, IH by lia. cbn [bind].
      rewrite for_range_S. unfold explode_step.
      replace (2 + k - 2)%nat with k by lia.
      replace (2 + k - 1)%nat with (Datatypes.S k) by lia.
      change (2 + k)%nat with (Datatypes.S (Datatypes.S k)).
      rewrite (index_lookup _ _ _ Ha), (index_lookup _ _ _ Hb),
        (index_lookup _ _ _ Hc). cbn [bind].
      rewrite (proj2 (Qle_bool_iff _ _) (Hgentle _ _ _ _ Ha Hb Hc)).
      cbn [bind for_range]. f_equal. f_equal.
      replace (Datatypes.S k + 2)%nat with (Datatypes.S (k + 2)) by lia.
      replace (k + 2)%nat with (Datatypes.S (Datatypes.S k)) by lia.
      now rewrite (take_S_r _ _ _ Hc). }
  rewrite Hgen by lia. cbn [bind fst snd app]. f_equal. f_equal.
  apply take_ge. lia.
Qed.

(** C7: three points with a sharp turn at the middle one are split into
    [[p0; p1]], [[p1]] and [[p1; p2]]. *)
Theorem explode_sharp_angles_three (p0 p1 p2 : point) (threshold : Q) :
  threshold < angle_between_segments E p0 p1 p2 ->
  explode_sharp_angles E [p0; p1; p2] threshold
  = Ok [[p0; p1]; [p1]; [p1; p2]].
Proof.
  intros Hsharp. apply Qle_bool_false in Hsharp.
  unfold explode_sharp_angles, explode_state.
  change (length [p0; p1; p2] <? 3)%nat with false. cbv iota.
  change (index [p0; p1; p2] 0) with (Ok p0).
  change (index [p0; p1; p2] 1) with (Ok p1).
  cbn [bind length Nat.sub]. rewrite for_range_S.
  pose proof (explode_step_at [p0; p1; p2] threshold 0 p0 p1 p2 [] []
                eq_refl eq_refl eq_refl) as Hstep.
  cbn [app Nat.add] in Hstep. rewrite Hstep, Hsharp. reflexivity.
Qed.

(** C3 (as the code has it): when the turn at [v = coords[i - 1]] exceeds
    the threshold, the piece closed at index [i] ends with [v] (it is
    [pre ++ [a; v]] with [a = coords[i - 2]]); the loop emits it, then
    [[v]], and starts the piece [[v; c]] with [c = coords[i]]; the three
    appear in this order in the result. *)
Theorem explode_sharp_vertex_closes_piece (coords : list point) (threshold : Q)
    (i : nat) (a v c : point) :
  (2 <= i)%nat ->
  coords !! (i - 2)%nat = Some a ->
  coords !! (i - 1)%nat = Some v ->
  coords !! i = Some c ->
  threshold < angle_between_segments E a v c ->
  exists lines pre,
    explode_state E coords threshold (i - 2) = Ok (lines, pre ++ [a; v])
    /\ explode_state E coords threshold (i - 1)
       = Ok (lines ++ [pre ++ [a; v]; [v]], [v; c])
    /\ exists more rest,
         explode_sharp_angles E coords threshold
         = Ok (lines ++ [pre ++ [a; v]; [v]] ++ (v :: c :: more) :: rest).
Proof.
  intros Hi Ha Hv Hc Hsharp. apply Qle_bool_false in Hsharp.
  destruct i as [|[|k]]; [lia..|].
  replace (Datatypes.S (Datatypes.S k) - 2)%nat with k in * by lia.
  replace (Datatypes.S (Datatypes.S k) - 1)%nat with (Datatypes.S k) in * by lia.
  destruct (explode_state_ends coords threshold k a v Ha Hv) as (lines & pre & Hst).
  assert (Hnext : explode_state E coords threshold (Datatypes.S k)
                  = Ok (lines ++ [pre ++ [a; v]; [v]], [v; c])).
  { replace (Datatypes.S k) with (k + 1)%nat by lia.
    rewrite explode_state_add, Hst. cbn [bind]. rewrite for_range_S.
    rewrite (explode_step_at _ _ _ a v c) by assumption.
    now rewrite Hsharp. }
  exists lines, pre. split; [exact Hst|]. split; [exact Hnext|].
  pose proof (lookup_lt_Some _ _ _ Hc) as Hlen.
  unfold explode_sharp_angles.
  replace (length coords <? 3)%nat with false
    by (symmetry; apply Nat.ltb_ge; lia).
  remember (length coords - 2 - Datatypes.S k)%nat as j eqn:Hj.
  replace (length coords - 2)%nat with (Datatypes.S k + j)%nat by lia.
  assert (exists st, explode_state E coords threshold (Datatypes.S k + j) = Ok st)
    as [st Hfin].
  { assert (is_Some (coords !! (Datatypes.S k + j)%nat)) as [y Hy]
      by (apply lookup_lt_is_Some; lia).
    assert (is_Some (coords !! Datatypes.S (Datatypes.S k + j))) as [z Hz]
      by (apply lookup_lt_is_Some; lia).
    destruct (explode_state_ends coords threshold _ y z Hy Hz) as (l' & p' & H').
    eauto. }
  rewrite Hfin. cbn [bind].
  rewrite explode_state_add, Hnext in Hfin. cbn [bind] in Hfin.
  apply (for_range_extends _ _ _ _ _ _ _ (extends_refl _)) in Hfin
    as (more & rest & Hext).
  cbn [fst snd] in Hext. exists more, rest. now rewrite Hext, <- app_assoc.
Qed.

End Explode.

(** A right-angle turn in the flat world. *)
Lemma explode_sharp_angles_three_witness :
  45 < angle_between_segments flat (0, 0) (0, 50) (50, 50)
  /\ explode_sharp_angles flat [(0, 0); (0, 50); (50, 50)] 45
     = Ok [[(0, 0); (0, 50)]; [(0, 50)]; [(0, 50); (50, 50)]].
Proof.
  assert (H : 45 < angle_between_segments flat (0, 0) (0, 50) (50, 50))
    by reflexivity.
  split; [exact H|].
  exact (explode_sharp_angles_three flat (0, 0) (0, 50) (50, 50) 45 H).
Defined.

(** On that turn the piece closed at the split is [[p0; p1]], which
    contains the sharp vertex [p1]. *)
Lemma closes_piece_without_sharp_vertex_fails :
  ~ closes_piece_without_sharp_vertex flat [(0, 0); (0, 50); (50, 50)] 45.
Proof.
  intros H.
  destruct (H 2%nat (0, 0) (0, 50) (50, 50) [] [(0, 0); (0, 50)])
    as [Hnotin _]; try reflexivity.
  apply Hnotin. right. now left.
Qed.

Lemma explode_sharp_vertex_closes_piece_witness :
  exists lines pre,
    explode_state flat [(0, 0); (0, 50); (50, 50)] 45 0
    = Ok (lines, pre ++ [(0, 0); (0, 50)])
    /\ explode_state flat [(0, 0); (0, 50); (50, 50)] 45 1
       = Ok (lines ++ [pre ++ [(0, 0); (0, 50)]; [(0, 50)]],
             [(0, 50); (50, 50)]).
Proof.
  destruct (explode_sharp_vertex_closes_piece flat
              [(0, 0); (0, 50); (50, 50)] 45 2 (0, 0) (0, 50) (50, 50))
    as (lines & pre & H0 & H1 & _); try reflexivity.
  exists lines, pre. split; assumption.
Defined.

(** ** Squares and rings *)

Section Ring.

Context (E : externals).

Lemma point_to_square_eq (c : point) (width : Q) :
  point_to_square E c width =
  let p := planar E c in
  let h := width / 2 in
  let first := Position (MERCATOR_TO_WGS E (p.1 - h) (p.2 - h)) in
  Ok (FeatureObj (Geometry "Polygon" (Items [Items
        [first;
         Position (MERCATOR_TO_WGS E (p.1 + h) (p.2 - h));
         Position (MERCATOR_TO_WGS E (p.1 + h) (p.2 + h));
         Position (MERCATOR_TO_WGS E (p.1 - h) (p.2 + h));
         first]]))).
Proof.
  unfold point_to_square, planar.
  now destruct (WGS_TO_MERCATOR E c.1 c.2) as [cx cy].
Qed.

Lemma point_to_square_buffered (c : point) (width : Q) :
  exists ring,
    point_to_square E c width = Ok (FeatureObj (Geometry "Polygon" (Items [Items ring])))
    /\ length ring = 5%nat /\ closed_ring ring.
Proof.
  rewrite point_to_square_eq. eexists. split; [reflexivity|].
  split; [reflexivity|]. split; [simpl; lia|]. eexists. split; reflexivity.
Qed.

Lemma py_div_Ok (a b : Q) : ~ b == 0 -> py_div a b = Ok (a / b).
Proof.
  intros Hb. unfold py_div. destruct (Qeq_bool b 0) eqn:Hz; [|reflexivity].
  now apply Qeq_bool_iff in Hz.
Qed.

Lemma py_div_inv (a b q : Q) : py_div a b = Ok q -> q = a / b.
Proof. unfold py_div. destruct (Qeq_bool b 0); congruence. Qed.

Lemma py_div_Raise (a b : Q) e : py_div a b = Raise e -> e = ZeroDivisionError.
Proof. unfold py_div. destruct (Qeq_bool b 0); congruence. Qed.

Lemma segment_normal_inv (c0 c1 : point) (half_width : Q) p0 p1 n :
  segment_normal E c0 c1 half_width = Ok (p0, p1, n) ->
  p0 = planar E c0 /\ p1 = planar E c1
  /\ n = ((unit_normal E c0 c1).1 * half_width,
          (unit_normal E c0 c1).2 * half_width).
Proof.
  unfold segment_normal, unit_normal, segment_mag, planar.
  destruct (WGS_TO_MERCATOR E c0.1 c0.2) as [p0x p0y].
  destruct (WGS_TO_MERCATOR E c1.1 c1.2) as [p1x p1y]. cbn [fst snd].
  intros H. apply bind_Ok in H as (dx & Hdx & H).
  apply bind_Ok in H as (dy & Hdy & H).
  apply py_div_inv in Hdx, Hdy. subst dx dy. now injection H as <- <- <-.
Qed.

Lemma segment_normal_Ok (c0 c1 : point) (half_width : Q) :
  ~ segment_mag E c0 c1 == 0 ->
  segment_normal E c0 c1 half_width
  = Ok (planar E c0, planar E c1,
        ((unit_normal E c0 c1).1 * half_width,
         (unit_normal E c0 c1).2 * half_width)).
Proof.
  unfold segment_normal, unit_normal, segment_mag, planar.
  destruct (WGS_TO_MERCATOR E c0.1 c0.2) as [p0x p0y].
  destruct (WGS_TO_MERCATOR E c1.1 c1.2) as [p1x p1y]. cbn [fst snd].
  intros Hmag. now rewrite !py_div_Ok.
Qed.

Lemma segment_normal_Raise (c0 c1 : point) (half_width : Q) e :
  segment_normal E c0 c1 half_width = Raise e -> e = ZeroDivisionError.
Proof.
  unfold segment_normal.
  destruct (WGS_TO_MERCATOR E c0.1 c0.2) as [p0x p0y].
  destruct (WGS_TO_MERCATOR E c1.1 c1.2) as [p1x p1y].
  destruct (py_div (p1x - p0x) _) eqn:H1; cbn [bind];
    [|intros [= <-]; eapply py_div_Raise; eauto].
  destruct (py_div (p1y - p0y) _) eqn:H2; cbn [bind];
    [discriminate|intros [= <-]; eapply py_div_Raise; eauto].
Qed.

Lemma assign_inv {A} (l l' : list A) i v :
  assign l i v = Ok l' -> (i < length l)%nat /\ l' = <[i:=v]> l.
Proof.
  unfold assign. destruct (decide (i < length l)%nat); [|discriminate].
  now intros [= <-].
Qed.

(** One iteration of the ring loop writes the two offsets of [coords[i]]
    along the normal of the segment that ends there. *)
Lemma ring_step_inv (fc : list point) (half_width : Q) (n i : nat)
    (arr arr' : list coordinates) :
  ring_step E fc half_width n i arr = Ok arr' ->
  exists a b,
    fc !! (i - 1)%nat = Some a /\ fc !! i = Some b
    /\ (i < length arr)%nat /\ (n - i - 1 < length arr)%nat
    /\ arr' =
       <[(n - i - 1)%nat :=
           Position (displaced_back E b (unit_normal E a b) half_width)]>
         (<[i := Position (displaced E b (unit_normal E a b) half_width)]> arr).
Proof.
  unfold ring_step. intros H.
  apply bind_Ok in H as (a & Ha & H). apply bind_Ok in H as (b & Hb & H).
  apply bind_Ok in H as ([[p0 [p1x p1y]] [nx ny]] & Hs & H).
  apply bind_Ok in H as (arr1 & H1 & H2).
  apply index_Ok in Ha, Hb.
  apply segment_normal_inv in Hs as (_ & Hp1 & [= -> ->]).
  apply assign_inv in H1 as [Hi ->]. apply assign_inv in H2 as [Hj ->].
  rewrite length_insert in Hj.
  exists a, b. repeat split; try assumption.
  assert (Hx : p1x = (planar E b).1) by now rewrite <- Hp1.
  assert (Hy : p1y = (planar E b).2) by now rewrite <- Hp1.
  clear Hp1. subst p1x p1y. reflexivity.
Qed.

(** The array after [k] iterations of the ring loop. *)
Lemma ring_loop_inv (fc : list point) (half_width : Q) (n k : nat)
    (arr0 arr : list coordinates) :
  n = (2 * length fc)%nat ->
  (k < length fc)%nat ->
  length arr0 = (n + 1)%nat ->
  for_range 1 k (ring_step E fc half_width n) arr0 = Ok arr ->
  length arr = (n + 1)%nat
  /\ (forall j, (j = 0 \/ k < j < n - 1 - k \/ n - 1 <= j)%nat ->
        arr !! j = arr0 !! j)
  /\ (forall i a b, (1 <= i <= k)%nat ->
        fc !! (i - 1)%nat = Some a -> fc !! i = Some b ->
        arr !! i = Some (Position (displaced E b (unit_normal E a b) half_width))
        /\ arr !! (n - i - 1)%nat
           = Some (Position (displaced_back E b (unit_normal E a b) half_width))).
Proof.
  intros Hn. revert arr. induction k as [|k IH]; intros arr Hk Hlen Hrun.
  - injection Hrun as <-. repeat split; [assumption|lia|lia].
  - rewrite for_range_snoc in Hrun. apply bind_Ok in Hrun as (arr1 & Hrun & Hstep).
    destruct (IH arr1) as (Hlen1 & Hkeep & Hset); [lia|assumption|assumption|].
    apply ring_step_inv in Hstep as (a & b & Ha & Hb & Hi & Hj & ->).
    split; [now rewrite !length_insert|]. split.
    + intros j Hjr. rewrite !list_lookup_insert_ne by lia. apply Hkeep. lia.
    + intros i a' b' Hir Ha' Hb'.
      destruct (decide (i = 1 + k)%nat) as [->|Hne].
      * rewrite Ha in Ha'. rewrite Hb in Hb'.
        injection Ha' as <-. injection Hb' as <-. split.
        -- rewrite list_lookup_insert_ne by lia.
           now rewrite list_lookup_insert_eq by lia.
        -- now rewrite list_lookup_insert_eq by (rewrite length_insert; lia).
      * rewrite !list_lookup_insert_ne by lia. apply Hset; [lia|assumption..].
Qed.

(** What [line_ring] returns, when it returns: the ring of [2 * len + 1]
    entries, closed, with the two offsets of every coordinate but the
    first taken along the normal of the segment that ends at it. *)
Lemma line_ring_inv (fc : list point) (half_width : Q) (r : obj) :
  (2 <= length fc)%nat ->
  line_ring E fc half_width (2 * length fc)
    (replicate (2 * length fc + 1) Null) = Ok r ->
  exists ring c0 c1,
    fc !! 0%nat = Some c0 /\ fc !! 1%nat = Some c1
    /\ r = FeatureObj (Geometry "Polygon" (Items [Items ring]))
    /\ length ring = (2 * length fc + 1)%nat
    /\ ring !! 0%nat
       = Some (Position (displaced E c0 (unit_normal E c0 c1) half_width))
    /\ ring !! (2 * length fc - 1)%nat
       = Some (Position (displaced_back E c0 (unit_normal E c0 c1) half_width))
    /\ ring !! (2 * length fc)%nat = ring !! 0%nat
    /\ (forall i a b, (1 <= i < length fc)%nat ->
          fc !! (i - 1)%nat = Some a -> fc !! i = Some b ->
          ring !! i = Some (Position (displaced E b (unit_normal E a b) half_width))
          /\ ring !! (2 * length fc - i - 1)%nat
             = Some (Position (displaced_back E b (unit_normal E a b) half_width))).
Proof.
  intros Hlen H. unfold line_ring in H.
  set (n := (2 * length fc)%nat) in *.
  apply bind_Ok in H as (c0 & Hc0 & H). apply bind_Ok in H as (c1 & Hc1 & H).
  apply bind_Ok in H as ([[[p0x p0y] p1] [nx ny]] & Hs & H).
  apply bind_Ok in H as (arr1 & H1 & H). apply bind_Ok in H as (arr2 & H2 & H).
  apply bind_Ok in H as (first & Hf & H). apply bind_Ok in H as (arr3 & H3 & H).
  apply bind_Ok in H as (ring & Hloop & H). injection H as <-.
  apply index_Ok in Hc0, Hc1, Hf.
  apply segment_normal_inv in Hs as (Hp0 & _ & [= -> ->]).
  assert (Hx : p0x = (planar E c0).1) by now rewrite <- Hp0.
  assert (Hy : p0y = (planar E c0).2) by now rewrite <- Hp0.
  clear Hp0. subst p0x p0y.
  apply assign_inv in H1 as [Hi1 ->]. apply assign_inv in H2 as [Hi2 ->].
  apply assign_inv in H3 as [Hi3 ->].
  rewrite !length_insert, length_replicate in *.
  rewrite list_lookup_insert_ne in Hf by lia.
  rewrite list_lookup_insert_eq in Hf by (rewrite length_replicate; lia).
  injection Hf as <-.
  apply ring_loop_inv in Hloop as (Hl & Hkeep & Hset);
    [|reflexivity|lia|now rewrite !length_insert, length_replicate].
  exists ring, c0, c1. repeat split; try assumption.
  - rewrite Hkeep by lia. rewrite !list_lookup_insert_ne by lia.
    now rewrite list_lookup_insert_eq by (rewrite length_replicate; lia).
  - rewrite Hkeep by lia. rewrite list_lookup_insert_ne by lia.
    now rewrite list_lookup_insert_eq
      by (rewrite length_insert, length_replicate; lia).
  - rewrite !Hkeep by lia.
    rewrite list_lookup_insert_eq
      by (rewrite !length_insert, length_replicate; lia).
    rewrite !list_lookup_insert_ne by lia.
    now rewrite list_lookup_insert_eq by (rewrite length_replicate; lia).
  - apply Hset; [lia|assumption..].
  - apply Hset; [lia|assumption..].
Qed.

Lemma line_ring_buffered (fc : list point) (half_width : Q) (r : obj) :
  (2 <= length fc)%nat ->
  line_ring E fc half_width (2 * length fc)
    (replicate (2 * length fc + 1) Null) = Ok r ->
  exists ring,
    r = FeatureObj (Geometry "Polygon" (Items [Items ring]))
    /\ length ring = (2 * length fc + 1)%nat /\ closed_ring ring.
Proof.
  intros Hlen H.
  apply line_ring_inv in H
    as (ring & c0 & c1 & _ & _ & -> & Hl & H0 & _ & Hn & _); [|assumption].
  exists ring. split; [reflexivity|]. split; [assumption|].
  split; [lia|]. eexists. split.
  - rewrite head_lookup. exact H0.
  - rewrite last_lookup, Hl, <- H0, <- Hn. f_equal. lia.
Qed.

(** The ring loop and [line_ring] return when no planar segment has
    length zero. *)
Lemma ring_loop_Ok (fc : list point) (half_width : Q) (n k : nat)
    (arr0 : list coordinates) :
  (forall i a b, fc !! i = Some a -> fc !! Datatypes.S i = Some b ->
     ~ segment_mag E a b == 0) ->
  n = (2 * length fc)%nat ->
  (k < length fc)%nat ->
  length arr0 = (n + 1)%nat ->
  exists arr, for_range 1 k (ring_step E fc half_width n) arr0 = Ok arr
              /\ length arr = (n + 1)%nat.
Proof.
  intros Hmag Hn. induction k as [|k IH]; intros Hk Hlen.
  - exists arr0. now split.
  - destruct IH as (arr1 & Hrun & Hl1); [lia|assumption|].
    assert (is_Some (fc !! k)) as [a Ha] by (apply lookup_lt_is_Some; lia).
    assert (is_Some (fc !! Datatypes.S k)) as [b Hb] by (apply lookup_lt_is_Some; lia).
    rewrite for_range_snoc, Hrun. cbn [bind]. unfold ring_step.
    replace (1 + k - 1)%nat with k by lia.
    change (1 + k)%nat with (Datatypes.S k).
    rewrite (index_lookup _ _ _ Ha), (index_lookup _ _ _ Hb). cbn [bind].
    rewrite segment_normal_Ok by eauto. cbn [bind].
    destruct (planar E b) as [p1x p1y].
    rewrite assign_Ok by lia. cbn [bind].
    rewrite assign_Ok by (rewrite length_insert; lia).
    eexists. split; [reflexivity|]. now rewrite !length_insert.
Qed.

Lemma line_ring_Ok (fc : list point) (half_width : Q) :
  (forall i a b, fc !! i = Some a -> fc !! Datatypes.S i = Some b ->
     ~ segment_mag E a b == 0) ->
  (2 <= length fc)%nat ->
  exists r, line_ring E fc half_width (2 * length fc)
              (replicate (2 * length fc + 1) Null) = Ok r.
Proof.
  intros Hmag Hlen. unfold line_ring.
  assert (is_Some (fc !! 0%nat)) as [c0 Hc0] by (apply lookup_lt_is_Some; lia).
  assert (is_Some (fc !! 1%nat)) as [c1 Hc1] by (apply lookup_lt_is_Some; lia).
  rewrite (index_lookup _ _ _ Hc0), (index_lookup _ _ _ Hc1). cbn [bind].
  rewrite segment_normal_Ok by eauto. cbn [bind].
  destruct (planar E c0) as [p0x p0y].
  rewrite assign_Ok by (rewrite length_replicate; lia). cbn [bind].
  rewrite assign_Ok by (rewrite length_insert, length_replicate; lia). cbn [bind].
  rewrite (index_lookup _ 0 (Position (MERCATOR_TO_WGS E
             (p0x + (unit_normal E c0 c1).1 * half_width)
             (p0y + (unit_normal E c0 c1).2 * half_width)))).
  2:{ rewrite list_lookup_insert_ne by lia.
      now rewrite list_lookup_insert_eq by (rewrite length_replicate; lia). }
  cbn [bind].
  rewrite assign_Ok by (rewrite !length_insert, length_replicate; lia). cbn [bind].
  edestruct (ring_loop_Ok fc half_width (2 * length fc) (length fc - 1))
    as (arr & -> & _); [eassumption|reflexivity|lia| |].
  - now rewrite !length_insert, length_replicate.
  - cbn [bind]. eauto.
Qed.

Lemma ring_step_Raise (fc : list point) (half_width : Q) (n i : nat)
    (arr : list coordinates) (e : exn) :
  ring_step E fc half_width n i arr = Raise e -> builtin e.
Proof.
  unfold ring_step. intros H.
  apply bind_Raise in H as [H | (a & _ & H)];
    [apply index_Raise in H as ->; exact I|].
  apply bind_Raise in H as [H | (b & _ & H)];
    [apply index_Raise in H as ->; exact I|].
  apply bind_Raise in H as [H | ([[p0 [p1x p1y]] [nx ny]] & _ & H)];
    [apply segment_normal_Raise in H as ->; exact I|].
  apply bind_Raise in H as [H | (arr1 & _ & H)];
    apply assign_Raise in H as ->; exact I.
Qed.

Lemma line_ring_Raise (fc : list point) (half_width : Q) (n : nat)
    (arr : list coordinates) (e : exn) :
  line_ring E fc half_width n arr = Raise e -> builtin e.
Proof.
  unfold line_ring. intros H.
  apply bind_Raise in H as [H | (c0 & _ & H)];
    [apply index_Raise in H as ->; exact I|].
  apply bind_Raise in H as [H | (c1 & _ & H)];
    [apply index_Raise in H as ->; exact I|].
  apply bind_Raise in H as [H | ([[[p0x p0y] p1] [nx ny]] & _ & H)];
    [apply segment_normal_Raise in H as ->; exact I|].
  apply bind_Raise in H as [H | (arr1 & _ & H)];
    [apply assign_Raise in H as ->; exact I|].
  apply bind_Raise in H as [H | (arr2 & _ & H)];
    [apply assign_Raise in H as ->; exact I|].
  apply bind_Raise in H as [H | (first & _ & H)];
    [apply index_Raise in H as ->; exact I|].
  apply bind_Raise in H as [H | (arr3 & _ & H)];
    [apply assign_Raise in H as ->; exact I|].
  apply bind_Raise in H as [H | (arr4 & _ & H)]; [|discriminate].
  revert H. apply for_range_Raise. intros j s' e'. apply ring_step_Raise.
Qed.

End Ring.

(** ** Buffering a line string *)

Section Buffer.

Context (E : externals).

(** One unfolding of the recursive function, past the filter. *)
Lemma geojson_linestring_to_poly_rec_S (fuel : nat) (linestring : obj)
    (width : Q) (fc : list point) :
  filter_small_segments E linestring width = Ok fc ->
  geojson_linestring_to_poly_rec E (S fuel) linestring width =
  if (length fc <? 2)%nat then
    c <- index fc 0 ;; point_to_square E c width
  else
    lines <- explode_sharp_angles E fc DEFAULT_THRESHOLD ;;
    if (1 <? length lines)%nat then
      polys <- comprehension
                 (fun line => geojson_linestring_to_poly_rec E fuel line DEFAULT_WIDTH)
                 (map line_string lines) ;;
      cs <- comprehension
              (fun poly => g <- get_geometry poly ;; Ok (gcoordinates g)) polys ;;
      Ok (FeatureObj (Geometry "MultiPolygon" (Items cs)))
    else
      line_ring E fc (width / 2) (2 * length fc)
        (replicate (2 * length fc + 1) Null).
Proof. intros H. cbn [geojson_linestring_to_poly_rec]. now rewrite H. Qed.

Lemma geojson_linestring_to_poly_rec_filter_Raise (fuel : nat)
    (linestring : obj) (width : Q) (e : exn) :
  filter_small_segments E linestring width = Raise e ->
  geojson_linestring_to_poly_rec E (S fuel) linestring width = Raise e.
Proof. intros H. cbn [geojson_linestring_to_poly_rec]. now rewrite H. Qed.

Lemma items_length_path (coords : list point) :
  items_length (path_value coords) = length coords.
Proof. apply length_map. Qed.

(** Fuel above the number of input points is enough: the result does not
    depend on it, and an exception, if any, is one of the runtime, not
    the depth bound. *)
Lemma geojson_linestring_to_poly_rec_fuel (fuel : nat) :
  forall (linestring : obj) (width : Q),
    (items_length (get_coords linestring) < fuel)%nat ->
    (forall fuel', (items_length (get_coords linestring) < fuel')%nat ->
       geojson_linestring_to_poly_rec E fuel' linestring width
       = geojson_linestring_to_poly_rec E fuel linestring width)
    /\ (forall e, geojson_linestring_to_poly_rec E fuel linestring width = Raise e ->
          builtin e).
Proof.
  induction fuel as [|fuel IH]; intros ls w Hlen; [lia|].
  destruct (filter_small_segments E ls w) as [fc|e] eqn:Hf.
  2:{ split.
      - intros [|fuel'] Hf'; [lia|].
        now rewrite !(geojson_linestring_to_poly_rec_filter_Raise _ _ _ _ Hf).
      - intros e'. rewrite (geojson_linestring_to_poly_rec_filter_Raise _ _ _ _ Hf).
        intros [= <-]. now rewrite (filter_small_segments_Raise _ _ _ _ Hf). }
  destruct (filter_small_segments_inv _ _ _ _ Hf) as (coords & Hc & _ & Hle).
  rewrite Hc, items_length_path in Hlen.
  destruct (explode_sharp_angles_Ok E fc DEFAULT_THRESHOLD) as [lines Hl].
  assert (Hpieces : (1 < length lines)%nat -> forall x, In x (map line_string lines) ->
            (items_length (get_coords x) < length coords)%nat).
  { intros Hmany x Hx. apply in_map_iff in Hx as (line & <- & Hin).
    pose proof (explode_sharp_angles_shorter E _ _ _ Hl Hmany) as Hshort.
    rewrite List.Forall_forall in Hshort. specialize (Hshort _ Hin).
    cbn beta in Hshort.
    cbn [line_string get_coords gcoordinates]. rewrite items_length_path. lia. }
  split.
  - intros [|fuel'] Hf'; [lia|]. rewrite Hc, items_length_path in Hf'.
    rewrite !(geojson_linestring_to_poly_rec_S _ _ _ _ Hf).
    destruct (length fc <? 2)%nat; [reflexivity|].
    rewrite Hl. cbn [bind].
    destruct (1 <? length lines)%nat eqn:Hmany; [|reflexivity].
    apply Nat.ltb_lt in Hmany. f_equal. apply comprehension_ext.
    intros x Hx. specialize (Hpieces Hmany x Hx).
    apply (IH x DEFAULT_WIDTH); lia.
  - intros e. rewrite (geojson_linestring_to_poly_rec_S _ _ _ _ Hf).
    destruct (length fc <? 2)%nat.
    { intros H. apply bind_Raise in H as [H | (c & _ & H)];
        [apply index_Raise in H as ->; exact I|].
      now rewrite point_to_square_eq in H. }
    rewrite Hl. cbn [bind].
    destruct (1 <? length lines)%nat eqn:Hmany; [|apply line_ring_Raise].
    apply Nat.ltb_lt in Hmany. intros H.
    apply bind_Raise in H as [H | (polys & _ & H)].
    + apply comprehension_Raise in H as (x & Hx & H).
      specialize (Hpieces Hmany x Hx).
      apply (IH x DEFAULT_WIDTH ltac:(lia)). exact H.
    + apply bind_Raise in H as [H | (cs & _ & H)]; [|discriminate].
      apply comprehension_Raise in H as (x & _ & H).
      destruct x; simpl in H; [discriminate|]. now injection H as <-.
Qed.

Lemma geojson_linestring_to_poly_fuel (linestring : obj) (width : Q) (fuel : nat) :
  (items_length (get_coords linestring) < fuel)%nat ->
  geojson_linestring_to_poly_rec E fuel linestring width
  = geojson_linestring_to_poly E linestring width.
Proof.
  intros H. unfold geojson_linestring_to_poly.
  apply geojson_linestring_to_poly_rec_fuel; [lia | assumption].
Qed.

Lemma geojson_linestring_to_poly_Raise (linestring : obj) (width : Q) (e : exn) :
  geojson_linestring_to_poly E linestring width = Raise e -> builtin e.
Proof.
  unfold geojson_linestring_to_poly.
  apply geojson_linestring_to_poly_rec_fuel. lia.
Qed.

Lemma coordinates_of_buffered (polys : list obj) (cs : list coordinates) :
  Forall (fun y => exists g, y = FeatureObj g /\ buffered g) polys ->
  comprehension (fun poly => g <- get_geometry poly ;; Ok (gcoordinates g)) polys
    = Ok cs ->
  exists gs, Forall buffered gs /\ cs = map gcoordinates gs.
Proof.
  intros Hall. revert cs. induction Hall as [|y polys (g & -> & Hg) _ IH]; intros cs H.
  - injection H as <-. exists []. split; [constructor | reflexivity].
  - simpl in H. apply bind_Ok in H as (cs' & Hcs' & H). injection H as <-.
    destruct (IH _ Hcs') as (gs & Hgs & ->).
    exists (g :: gs). split; [now constructor | reflexivity].
Qed.

Lemma geojson_linestring_to_poly_rec_buffered (fuel : nat) :
  forall (linestring : obj) (width : Q) (r : obj),
    geojson_linestring_to_poly_rec E fuel linestring width = Ok r ->
    exists g, r = FeatureObj g /\ buffered g.
Proof.
  induction fuel as [|fuel IH]; intros ls w r H; [discriminate|].
  destruct (filter_small_segments E ls w) as [fc|e] eqn:Hf.
  2:{ now rewrite (geojson_linestring_to_poly_rec_filter_Raise _ _ _ _ Hf) in H. }
  rewrite (geojson_linestring_to_poly_rec_S _ _ _ _ Hf) in H.
  destruct (length fc <? 2)%nat eqn:Hlen.
  - apply bind_Ok in H as (c & _ & H).
    destruct (point_to_square_buffered E c w) as (ring & Hsq & _ & Hring).
    rewrite Hsq in H. injection H as <-.
    eexists. split; [reflexivity|]. now constructor.
  - apply Nat.ltb_ge in Hlen. apply bind_Ok in H as (lines & _ & H).
    destruct (1 <? length lines)%nat.
    + apply bind_Ok in H as (polys & Hpolys & H).
      apply bind_Ok in H as (cs & Hcs & H). injection H as <-.
      apply comprehension_Ok in Hpolys.
      assert (Hall : Forall (fun y => exists g, y = FeatureObj g /\ buffered g) polys).
      { clear -Hpolys IH. induction Hpolys; constructor; eauto. }
      destruct (coordinates_of_buffered _ _ Hall Hcs) as (gs & Hgs & ->).
      eexists. split; [reflexivity|]. now constructor.
    + apply line_ring_buffered in H as (ring & -> & _ & Hring); [|assumption].
      eexists. split; [reflexivity|]. now constructor.
Qed.

(** C5: the ring of a point buffer is closed and has five entries, and
    whatever [geojson_point_to_poly] and [geojson_linestring_to_poly]
    return is a feature whose geometry is a polygon of one closed ring of
    at least four entries, or a multi-polygon of the coordinates of such
    geometries. *)
Theorem buffered_rings_closed :
  (forall (c : point) (width : Q),
     exists ring,
       point_to_square E c width
       = Ok (FeatureObj (Geometry "Polygon" (Items [Items ring])))
       /\ length ring = 5%nat /\ closed_ring ring)
  /\ (forall (pt : obj) (width : Q) (r : obj),
        geojson_point_to_poly E pt width = Ok r ->
        exists g, r = FeatureObj g /\ buffered g)
  /\ (forall (linestring : obj) (width : Q) (r : obj),
        geojson_linestring_to_poly E linestring width = Ok r ->
        exists g, r = FeatureObj g /\ buffered g).
Proof.
  split; [apply point_to_square_buffered|]. split.
  - intros pt w r H. unfold geojson_point_to_poly in H.
    apply bind_Ok in H as (c & _ & H).
    destruct (point_to_square_buffered E c w) as (ring & Hsq & _ & Hring).
    rewrite Hsq in H. injection H as <-.
    eexists. split; [reflexivity|]. now constructor.
  - intros ls w r. apply geojson_linestring_to_poly_rec_buffered.
Qed.

Lemma comprehension_map {A B C} (f : B -> result C) (g : A -> B) (l : list A) :
  comprehension f (map g l) = comprehension (fun x => f (g x)) l.
Proof.
  induction l as [|x l IH]; [reflexivity|]. simpl. now rewrite IH.
Qed.

(** The line buffer in terms of itself: every piece of a split line is
    buffered with [DEFAULT_WIDTH], whatever [width] is. *)
Lemma geojson_linestring_to_poly_eq (linestring : obj) (width : Q)
    (fc : list point) :
  filter_small_segments E linestring width = Ok fc ->
  geojson_linestring_to_poly E linestring width =
  if (length fc <? 2)%nat then
    c <- index fc 0 ;; point_to_square E c width
  else
    lines <- explode_sharp_angles E fc DEFAULT_THRESHOLD ;;
    if (1 <? length lines)%nat then
      polys <- comprehension
                 (fun line => geojson_linestring_to_poly E (line_string line) DEFAULT_WIDTH)
                 lines ;;
      cs <- comprehension
              (fun poly => g <- get_geometry poly ;; Ok (gcoordinates g)) polys ;;
      Ok (FeatureObj (Geometry "MultiPolygon" (Items cs)))
    else
      line_ring E fc (width / 2) (2 * length fc)
        (replicate (2 * length fc + 1) Null).
Proof.
  intros Hf. unfold geojson_linestring_to_poly at 1.
  rewrite (geojson_linestring_to_poly_rec_S _ _ _ _ Hf).
  destruct (length fc <? 2)%nat; [reflexivity|].
  destruct (explode_sharp_angles E fc DEFAULT_THRESHOLD) as [lines|e] eqn:Hl;
    [|reflexivity].
  cbn [bind]. destruct (1 <? length lines)%nat eqn:Hmany; [|reflexivity].
  apply Nat.ltb_lt in Hmany. rewrite comprehension_map. f_equal.
  apply comprehension_ext. intros line Hin.
  apply geojson_linestring_to_poly_fuel.
  destruct (filter_small_segments_inv _ _ _ _ Hf) as (coords & -> & _ & Hle).
  pose proof (explode_sharp_angles_shorter E _ _ _ Hl Hmany) as Hshort.
  rewrite List.Forall_forall in Hshort. specialize (Hshort _ Hin). cbn beta in Hshort.
  cbn [line_string get_coords gcoordinates]. rewrite !items_length_path. lia.
Qed.

(** C4 (as the code has it): on a non-empty coordinate list of which the
    filter leaves fewer than two points, exactly the first point is left
    and the line buffer returns its point buffer, a polygon of one closed
    ring of five entries. *)
Theorem short_line_point_buffer (linestring : obj) (coords : list point)
    (width : Q) (fc : list point) :
  get_coords linestring = path_value coords ->
  coords <> [] ->
  filter_small_segments E linestring width = Ok fc ->
  (length fc < 2)%nat ->
  exists c0 ring,
    head coords = Some c0 /\ fc = [c0]
    /\ geojson_linestring_to_poly E linestring width = point_to_square E c0 width
    /\ point_to_square E c0 width
       = Ok (FeatureObj (Geometry "Polygon" (Items [Items ring])))
    /\ length ring = 5%nat /\ closed_ring ring.
Proof.
  intros Hc Hne Hf Hlen.
  destruct coords as [|c0 rest]; [congruence|].
  pose proof Hf as Hf'. rewrite (filter_small_segments_eq E _ _ _ Hc) in Hf'.
  injection Hf' as <-.
  destruct (filter_walk E width c0 rest) as [|x l] eqn:Hw; [|simpl in Hlen; lia].
  destruct (point_to_square_buffered E c0 width) as (ring & Hsq & Hl & Hring).
  exists c0, ring. split; [reflexivity|]. split; [reflexivity|].
  split; [|split; [assumption|split; assumption]].
  now rewrite (geojson_linestring_to_poly_eq _ _ _ Hf).
Qed.

(** C2 (as the code has it): for a line that the filter leaves with at
    least two points, on which no turn exceeds the threshold and no
    planar segment has length zero, the line buffer returns a polygon of one ring of
    [2 * len + 1] entries in which every vertex but the first, so every
    interior vertex, appears displaced by [+ half_width] times the unit
    normal of the segment ending at it in the forward chain (index [i])
    and by [- half_width] times that same normal in the backward chain
    (index [2 * len - i - 1]). *)
Theorem line_ring_offsets (linestring : obj) (width : Q) (fc : list point) :
  filter_small_segments E linestring width = Ok fc ->
  (2 <= length fc)%nat ->
  (forall i a b c,
     fc !! i = Some a -> fc !! Datatypes.S i = Some b ->
     fc !! Datatypes.S (Datatypes.S i) = Some c ->
     angle_between_segments E a b c <= DEFAULT_THRESHOLD) ->
  (forall i a b, fc !! i = Some a -> fc !! Datatypes.S i = Some b ->
     ~ segment_mag E a b == 0) ->
  exists ring,
    geojson_linestring_to_poly E linestring width
    = Ok (FeatureObj (Geometry "Polygon" (Items [Items ring])))
    /\ length ring = (2 * length fc + 1)%nat
    /\ forall i a b, (1 <= i < length fc)%nat ->
         fc !! (i - 1)%nat = Some a -> fc !! i = Some b ->
         ring !! i
         = Some (Position (displaced E b (unit_normal E a b) (width / 2)))
         /\ ring !! (2 * length fc - i - 1)%nat
            = Some (Position (displaced_back E b (unit_normal E a b) (width / 2))).
Proof.
  intros Hf Hlen Hgentle Hmag.
  pose proof (explode_sharp_angles_gentle E _ _ Hgentle) as Hone.
  rewrite (geojson_linestring_to_poly_eq _ _ _ Hf).
  replace (length fc <? 2)%nat with false by (symmetry; apply Nat.ltb_ge; lia).
  rewrite Hone. cbn [bind length]. change (1 <? 1)%nat with false. cbv iota.
  destruct (line_ring_Ok E fc (width / 2) Hmag Hlen) as [r Hr].
  rewrite Hr.
  apply line_ring_inv in Hr
    as (ring & c0 & c1 & _ & _ & -> & Hl & _ & _ & _ & Hset); [|assumption].
  exists ring. split; [reflexivity|]. split; [assumption|].
  intros i a b Hi Ha Hb. now apply Hset.
Qed.

End Buffer.

(** The right-angle line of the flat world: a multi-polygon of three
    closed rings. *)
Lemma buffered_rings_closed_witness :
  exists g,
    geojson_linestring_to_poly flat
      (line_string [(0, 0); (0, 50); (50, 50)]) 10 = Ok (FeatureObj g)
    /\ buffered g.
Proof.
  destruct (buffered_rings_closed flat) as (_ & _ & H).
  destruct (H (line_string [(0, 0); (0, 50); (50, 50)]) 10 _ eq_refl)
    as (g & Hg & Hb).
  exists g. split; [now rewrite <- Hg | exact Hb].
Defined.

(** A single point: the filter returns it and the line buffer is its
    point buffer. *)
Lemma short_line_point_buffer_witness :
  exists c0 ring,
    geojson_linestring_to_poly flat (line_string [(1, 1)]) 10
    = point_to_square flat c0 10
    /\ point_to_square flat c0 10
       = Ok (FeatureObj (Geometry "Polygon" (Items [Items ring])))
    /\ length ring = 5%nat.
Proof.
  destruct (short_line_point_buffer flat (line_string [(1, 1)]) [(1, 1)] 10
              [(1, 1)] eq_refl ltac:(discriminate) eq_refl ltac:(simpl; lia))
    as (c0 & ring & _ & _ & H1 & H2 & H3 & _).
  exists c0, ring. repeat split; assumption.
Defined.

(** On the empty coordinate list the filter leaves no point and the line
    buffer raises [IndexError]. *)
Lemma short_line_becomes_square_fails :
  ~ short_line_becomes_square flat [] 10.
Proof.
  intros H. destruct (H [] eq_refl ltac:(simpl; lia)) as [ring Hring].
  discriminate Hring.
Qed.

(** A gentle turn in the flat world: east, then north-east. *)
Lemma line_ring_offsets_witness :
  exists ring,
    geojson_linestring_to_poly flat (line_string [(0, 0); (30, 0); (60, 40)]) 10
    = Ok (FeatureObj (Geometry "Polygon" (Items [Items ring])))
    /\ length ring = 7%nat.
Proof.
  destruct (line_ring_offsets flat (line_string [(0, 0); (30, 0); (60, 40)]) 10
              [(0, 0); (30, 0); (60, 40)] eq_refl ltac:(simpl; lia))
    as (ring & H1 & H2 & _).
  - intros i a b c Ha Hb Hc. destruct i as [|[|i]]; [|discriminate Hc..].
    injection Ha as <-. injection Hb as <-. injection Hc as <-. discriminate.
  - intros i a b Ha Hb. destruct i as [|[|[|i]]]; [| |discriminate Hb..].
    + injection Ha as <-. injection Hb as <-. discriminate.
    + injection Ha as <-. injection Hb as <-. discriminate.
  - exists ring. split; assumption.
Defined.

(** On that turn the backward offset of the middle vertex is taken along
    the normal of the first segment, not of the second. *)
Lemma backward_offset_along_next_segment_fails :
  ~ backward_offset_along_next_segment flat
      (line_string [(0, 0); (30, 0); (60, 40)]) 10.
Proof.
  intros H.
  destruct (H [(0, 0); (30, 0); (60, 40)] _ 1%nat (0, 0) (30, 0) (60, 40)
              eq_refl eq_refl ltac:(lia) eq_refl eq_refl eq_refl) as [_ Hback].
  vm_compute in Hback. discriminate Hback.
Qed.

(** C1 (the code at a width other than the default): a right-angle line
    buffered with width 10 in the flat world is split in three pieces,
    and each piece is buffered with [DEFAULT_WIDTH] = 25 instead of 10:
    the corner becomes the square of side 25, the two segments are offset
    by 25/2 on each side. *)
Theorem split_pieces_buffered_with_default_width :
  exists c1 c2 c3,
    geojson_linestring_to_poly flat
      (line_string [(0, 0); (0, 50); (50, 50)]) 10
    = Ok (FeatureObj (Geometry "MultiPolygon" (Items [c1; c2; c3])))
    /\ point_to_square flat (0, 50) DEFAULT_WIDTH
       = Ok (FeatureObj (Geometry "Polygon" c2))
    /\ point_to_square flat (0, 50) 10
       <> Ok (FeatureObj (Geometry "Polygon" c2))
    /\ geojson_linestring_to_poly flat (line_string [(0, 0); (0, 50)]) DEFAULT_WIDTH
       = Ok (FeatureObj (Geometry "Polygon" c1))
    /\ geojson_linestring_to_poly flat (line_string [(0, 0); (0, 50)]) 10
       <> Ok (FeatureObj (Geometry "Polygon" c1))
    /\ geojson_linestring_to_poly flat (line_string [(0, 50); (50, 50)]) DEFAULT_WIDTH
       = Ok (FeatureObj (Geometry "Polygon" c3))
    /\ geojson_linestring_to_poly flat (line_string [(0, 50); (50, 50)]) 10
       <> Ok (FeatureObj (Geometry "Polygon" c3)).
Proof.
  do 3 eexists. split; [vm_compute; reflexivity|].
  repeat split; try (vm_compute; reflexivity); vm_compute; discriminate.
Qed.

(** ** The dispatcher *)

Section Dispatch.

Context (E : externals).

Lemma geojson_point_to_poly_Raise (pt : obj) (width : Q) (e : exn) :
  geojson_point_to_poly E pt width = Raise e -> builtin e.
Proof.
  unfold geojson_point_to_poly. intros H.
  apply bind_Raise in H as [H | (c & _ & H)].
  - destruct (get_coords pt); simpl in H; try discriminate;
      now injection H as <-.
  - now rewrite point_to_square_eq in H.
Qed.

(** C8: the dispatcher raises its own exception exactly when the kind of
    the geometry is none of Point, LineString, Polygon and MultiPolygon;
    the exception then names the kind, and no value is returned. *)
Theorem convert_to_geojson_poly_unsupported (geom : geometry) (width : Q) :
  ((exists msg, convert_to_geojson_poly E (FeatureObj geom) width
                = Raise (Exception msg))
   <-> ~ In (gtype geom) ["Point"; "LineString"; "Polygon"; "MultiPolygon"])
  /\ (~ In (gtype geom) ["Point"; "LineString"; "Polygon"; "MultiPolygon"] ->
      convert_to_geojson_poly E (FeatureObj geom) width
      = Raise (Exception ("Unsupported type: " ++ gtype geom))).
Proof.
  unfold convert_to_geojson_poly.
  set (kinds := ["Point"; "LineString"; "Polygon"; "MultiPolygon"]).
  destruct (String.eqb_spec (gtype geom) "LineString") as [Hl|Hl].
  { assert (In (gtype geom) kinds) by (rewrite Hl; simpl; tauto).
    split; [split|]; [|tauto..].
    intros [msg H']. now apply geojson_linestring_to_poly_Raise in H'. }
  destruct (String.eqb_spec (gtype geom) "Point") as [Hp|Hp].
  { assert (In (gtype geom) kinds) by (rewrite Hp; simpl; tauto).
    split; [split|]; [|tauto..].
    intros [msg H']. now apply geojson_point_to_poly_Raise in H'. }
  destruct (String.eqb_spec (gtype geom) "Polygon") as [Hg|Hg].
  { assert (In (gtype geom) kinds) by (rewrite Hg; simpl; tauto).
    split; [split|]; [|tauto..]. now intros [msg H']. }
  destruct (String.eqb_spec (gtype geom) "MultiPolygon") as [Hm|Hm].
  { assert (In (gtype geom) kinds) by (rewrite Hm; simpl; tauto).
    split; [split|]; [|tauto..]. now intros [msg H']. }
  cbn [orb]. split; [split|]; [| eauto | reflexivity].
  intros _. simpl. intuition congruence.
Qed.

(** C10: a feature whose geometry is a Polygon or a MultiPolygon is
    answered with that very geometry, whatever the width. *)
Theorem convert_to_geojson_poly_passthrough (geom : geometry) (width : Q) :
  gtype geom = "Polygon" \/ gtype geom = "MultiPolygon" ->
  convert_to_geojson_poly E (FeatureObj geom) width = Ok (GeometryObj geom).
Proof.
  unfold convert_to_geojson_poly. now intros [-> | ->].
Qed.

End Dispatch.

Lemma convert_to_geojson_poly_passthrough_witness :
  convert_to_geojson_poly flat
    (FeatureObj (Geometry "Polygon"
       (Items [Items [Position (0, 0); Position (1, 0); Position (1, 1);
                      Position (0, 0)]]))) 10
  = Ok (GeometryObj (Geometry "Polygon"
       (Items [Items [Position (0, 0); Position (1, 0); Position (1, 1);
                      Position (0, 0)]]))).
Proof.
  apply (convert_to_geojson_poly_passthrough flat). now left.
Defined.

Lemma convert_to_geojson_poly_unsupported_witness :
  convert_to_geojson_poly flat
    (FeatureObj (Geometry "GeometryCollection" Null)) 10
  = Raise (Exception "Unsupported type: GeometryCollection").
Proof.
  apply (convert_to_geojson_poly_unsupported flat
           (Geometry "GeometryCollection" Null) 10).
  simpl. intuition discriminate.
Defined.

(** * Further properties *)

(** ** Angles *)

(** X1: the angular delta never exceeds 180, and it is negative exactly
    when the two bearings differ by more than 360. *)
Theorem abs_angular_delta_sign (a b : Q) :
  abs_angular_delta a b <= 180
  /\ (0 <= abs_angular_delta a b <-> Qabs (a - b) <= 360).
Proof.
  unfold abs_angular_delta.
  pose proof (Qabs_nonneg (a - b)) as Hd0.
  destruct (Qle_bool (Qabs (a - b)) 180) eqn:Hab;
    [apply Qle_bool_iff in Hab | apply Qle_bool_false in Hab];
    repeat split; intros; lra.
Qed.

(** X2: when the geodesic solver reports azimuths between -180 and 180,
    the turn angle at any vertex lies between 0 and 180. *)
Theorem angle_between_segments_range (E : externals) (p0 p1 p2 : point) :
  (forall lat1 lon1 lat2 lon2,
     -180 <= inverse_azi2 E lat1 lon1 lat2 lon2 <= 180) ->
  0 <= angle_between_segments E p0 p1 p2 <= 180.
Proof.
  intros Hazi. destruct p0 as [p0lon p0lat], p1 as [p1lon p1lat], p2 as [p2lon p2lat].
  unfold angle_between_segments, abs_angular_delta.
  pose proof (Hazi p0lat p0lon p1lat p1lon) as Ha.
  pose proof (Hazi p1lat p1lon p2lat p2lon) as Hb.
  set (x := inverse_azi2 E p0lat p0lon p1lat p1lon) in *.
  set (y := inverse_azi2 E p1lat p1lon p2lat p2lon) in *.
  pose proof (Qabs_nonneg (x - y)) as Hd0.
  assert (Hd : Qabs (x - y) <= 360) by (apply Qabs_case; intros; lra).
  destruct (Qle_bool (Qabs (x - y)) 180) eqn:Hxy;
    [apply Qle_bool_iff in Hxy | apply Qle_bool_false in Hxy]; lra.
Qed.

Lemma compass_range (lat1 lon1 lat2 lon2 : Q) :
  -180 <= compass lat1 lon1 lat2 lon2 <= 180.
Proof.
  unfold compass.
  destruct (lat2 - lat1 ?= 0), (lon2 - lon1 ?= 0); split; discriminate.
Qed.

Lemma angle_between_segments_range_witness :
  0 <= angle_between_segments flat (0, 0) (0, 50) (50, 50) <= 180.
Proof.
  apply (angle_between_segments_range flat). exact compass_range.
Defined.

(** ** More on the segment filter *)

Section FilterMore.

Context (E : externals).

Lemma filter_walk_chain (min_length : Q) (last : point) (cs : list point) :
  chain (far E min_length) (last :: filter_walk E min_length last cs).
Proof.
  revert last. induction cs as [|c cs IH]; intros last; [simpl; auto|].
  cbn [filter_walk].
  destruct (Qle_bool min_length _) eqn:Hd; [|apply IH].
  apply Qle_bool_iff in Hd. split; [exact Hd | apply IH].
Qed.

Lemma filter_walk_fixed (min_length : Q) (last : point) (cs : list point) :
  chain (far E min_length) (last :: cs) ->
  filter_walk E min_length last cs = cs.
Proof.
  revert last. induction cs as [|c cs IH]; intros last H; [reflexivity|].
  destruct H as [Hd H]. cbn [filter_walk].
  rewrite (proj2 (Qle_bool_iff _ _) Hd). f_equal. now apply IH.
Qed.

Lemma filter_small_segments_fixed (linestring : obj) (coords : list point)
    (min_length : Q) :
  get_coords linestring = path_value coords ->
  chain (far E min_length) coords ->
  filter_small_segments E linestring min_length = Ok coords.
Proof.
  intros Hc Hfar. rewrite (filter_small_segments_eq E _ coords _ Hc).
  destruct coords as [|c0 rest]; [reflexivity|].
  now rewrite filter_walk_fixed.
Qed.

Lemma filter_small_segments_chain (linestring : obj) (min_length : Q)
    (fc : list point) :
  filter_small_segments E linestring min_length = Ok fc ->
  chain (far E min_length) fc.
Proof.
  intros H. apply filter_small_segments_inv in H as (coords & _ & -> & _).
  destruct coords as [|c0 rest]; [exact I | apply filter_walk_chain].
Qed.

(** X3: in what the filter returns, every coordinate is at least
    [min_length] away from the one before it. *)
Theorem filter_small_segments_spaced (linestring : obj) (min_length : Q)
    (fc : list point) :
  filter_small_segments E linestring min_length = Ok fc ->
  forall i a b, fc !! i = Some a -> fc !! Datatypes.S i = Some b ->
    min_length <= geodesic_meters E (reversed b) (reversed a).
Proof.
  intros H. apply filter_small_segments_chain in H.
  induction fc as [|x fc IH]; intros i a b Ha Hb; [discriminate|].
  destruct H as [Hd H]. destruct i as [|i].
  - injection Ha as <-. destruct fc as [|y fc]; [discriminate|].
    injection Hb as <-. exact Hd.
  - exact (IH H i a b Ha Hb).
Qed.

(** X4: the filter is idempotent: filtering its own output again, with
    the same minimum length, changes nothing. *)
Theorem filter_small_segments_idempotent (linestring : obj) (min_length : Q)
    (fc : list point) :
  filter_small_segments E linestring min_length = Ok fc ->
  filter_small_segments E (line_string fc) min_length = Ok fc.
Proof.
  intros H. apply filter_small_segments_fixed; [reflexivity|].
  now apply filter_small_segments_chain in H.
Qed.

End FilterMore.

Lemma filter_small_segments_spaced_witness :
  10 <= geodesic_meters flat (reversed (0, 50)) (reversed (0, 0)).
Proof.
  apply (filter_small_segments_spaced flat
           (line_string [(0, 0); (0, 5); (0, 50)]) 10 [(0, 0); (0, 50)]
           eq_refl 0%nat); reflexivity.
Defined.

Lemma filter_small_segments_idempotent_witness :
  filter_small_segments flat (line_string [(0, 0); (0, 50)]) 10
  = Ok [(0, 0); (0, 50)].
Proof.
  exact (filter_small_segments_idempotent flat
           (line_string [(0, 0); (0, 5); (0, 50)]) 10 [(0, 0); (0, 50)] eq_refl).
Defined.

(** ** More on the sharp-angle splitter *)

Lemma take_two_more {A} (l : list A) (k : nat) (a b : A) :
  l !! k = Some a -> l !! Datatypes.S k = Some b ->
  take (k + 2) l = take k l ++ [a; b].
Proof.
  intros Ha Hb. replace (k + 2)%nat with (Datatypes.S (Datatypes.S k)) by lia.
  rewrite (take_S_r _ _ _ Hb), (take_S_r _ _ _ Ha). now rewrite <- app_assoc.
Qed.

Section ExplodeMore.

Context (E : externals).

(** Induction over the run of the splitter: a property of the points
    read so far and the pieces built so far, the current one last, that
    holds at the start and is kept by both branches of the loop, holds
    of the input and the result. *)
Lemma explode_sharp_angles_ind (threshold : Q)
    (P : list point -> list (list point) -> Prop) :
  (forall c0 c1, P [c0; c1] [[c0; c1]]) ->
  (forall l lines pre a b c,
     P (l ++ [a; b]) (lines ++ [pre ++ [a; b]]) ->
     angle_between_segments E a b c <= threshold ->
     P (l ++ [a; b; c]) (lines ++ [pre ++ [a; b; c]])) ->
  (forall l lines pre a b c,
     P (l ++ [a; b]) (lines ++ [pre ++ [a; b]]) ->
     threshold < angle_between_segments E a b c ->
     P (l ++ [a; b; c]) (lines ++ [pre ++ [a; b]; [b]; [b; c]])) ->
  forall coords lines,
    (2 <= length coords)%nat ->
    explode_sharp_angles E coords threshold = Ok lines ->
    P coords lines.
Proof.
  intros Hbase Hgentle Hsharp coords lines Hlen Hrun.
  assert (Hgen : forall k a b,
            coords !! k = Some a -> coords !! Datatypes.S k = Some b ->
            exists lines pre,
              explode_state E coords threshold k = Ok (lines, pre ++ [a; b])
              /\ P (take (k + 2) coords) (lines ++ [pre ++ [a; b]])).
  { induction k as [|k IH]; intros a b Ha Hb.
    - exists [], []. split.
      + unfold explode_state.
        now rewrite (index_lookup _ _ _ Ha), (index_lookup _ _ _ Hb).
      + rewrite (take_two_more _ _ _ _ Ha Hb). apply Hbase.
    - assert (is_Some (coords !! k)) as [z Hz]
        by (apply lookup_lt_is_Some; apply lookup_lt_Some in Ha; lia).
      destruct (IH z a Hz Ha) as (lines0 & pre & Hst & HP).
      rewrite (take_two_more _ _ _ _ Hz Ha) in HP.
      assert (Hstep : explode_state E coords threshold (Datatypes.S k) =
                if Qle_bool (angle_between_segments E z a b) threshold
                then Ok (lines0, (pre ++ [z]) ++ [a; b])
                else Ok (lines0 ++ [pre ++ [z; a]; [a]], [a; b])).
      { replace (Datatypes.S k) with (k + 1)%nat by lia.
        rewrite explode_state_add, Hst. cbn [bind]. rewrite for_range_S.
        rewrite (explode_step_at E _ _ _ z a b) by assumption.
        now destruct (Qle_bool _ _). }
      assert (Htake : take (Datatypes.S k + 2) coords = take k coords ++ [z; a; b]).
      { rewrite (take_two_more _ _ _ _ Ha Hb), (take_S_r _ _ _ Hz).
        now rewrite <- app_assoc. }
      rewrite Hstep, Htake.
      destruct (Qle_bool _ _) eqn:Hq.
      + apply Qle_bool_iff in Hq. exists lines0, (pre ++ [z]).
        split; [reflexivity|]. rewrite <- app_assoc. cbn [app]. now apply Hgentle.
      + apply Qle_bool_false in Hq.
        exists (lines0 ++ [pre ++ [z; a]; [a]]), [].
        split; [reflexivity|]. rewrite <- app_assoc. cbn [app]. now apply Hsharp. }
  unfold explode_sharp_angles in Hrun.
  destruct (length coords <? 3)%nat eqn:H3.
  - apply Nat.ltb_lt in H3. injection Hrun as <-.
    destruct coords as [|c0 [|c1 [|c2 l]]]; simpl in *; try lia. apply Hbase.
  - apply Nat.ltb_ge in H3.
    assert (is_Some (coords !! (length coords - 2)%nat)) as [a Ha]
      by (apply lookup_lt_is_Some; lia).
    assert (is_Some (coords !! Datatypes.S (length coords - 2))) as [b Hb]
      by (apply lookup_lt_is_Some; lia).
    destruct (Hgen _ a b Ha Hb) as (lines0 & pre & Hst & HP).
    rewrite Hst in Hrun. injection Hrun as <-. cbn [fst snd].
    replace (length coords - 2 + 2)%nat with (length coords) in HP by lia.
    now rewrite firstn_all in HP.
Qed.

(** X5: the splitter loses nothing: the first piece followed by the other
    pieces, each without its first point (the corner it repeats), is the
    input. *)
Theorem explode_sharp_angles_rejoin (coords : list point) (threshold : Q)
    (lines : list (list point)) :
  explode_sharp_angles E coords threshold = Ok lines ->
  exists first rest,
    lines = first :: rest /\ coords = first ++ flat_map (drop 1) rest.
Proof.
  intros Hrun.
  destruct (decide (length coords < 2)%nat) as [Hshort|Hlong].
  { unfold explode_sharp_angles in Hrun.
    replace (length coords <? 3)%nat with true in Hrun
      by (symmetry; apply Nat.ltb_lt; lia).
    injection Hrun as <-. exists coords, []. now rewrite app_nil_r. }
  revert coords lines Hlong Hrun.
  assert (Hsnoc : forall (lines : list (list point)) cur first rest (x : point),
            cur <> [] -> lines ++ [cur] = first :: rest ->
            exists first' rest',
              lines ++ [cur ++ [x]] = first' :: rest'
              /\ first' ++ flat_map (drop 1) rest'
                 = (first ++ flat_map (drop 1) rest) ++ [x]).
  { intros lines cur first rest x Hne Heq. destruct lines as [|l0 lines].
    - injection Heq as <- <-. exists (cur ++ [x]), []. simpl.
      now rewrite !app_nil_r.
    - injection Heq as <- <-. exists l0, (lines ++ [cur ++ [x]]).
      split; [reflexivity|]. rewrite !flat_map_app. simpl.
      rewrite !app_nil_r, <- !app_assoc. do 2 f_equal.
      destruct cur; [congruence | reflexivity]. }
  intros coords lines Hlong Hrun.
  refine (explode_sharp_angles_ind threshold
            (fun l pieces => exists first rest,
               pieces = first :: rest /\ l = first ++ flat_map (drop 1) rest)
            _ _ _ coords lines ltac:(lia) Hrun).
  - intros c0 c1. exists [c0; c1], []. split; reflexivity.
  - intros l ls pre a b c (first & rest & Heq & Hl) _.
    destruct (Hsnoc ls (pre ++ [a; b]) first rest c) as (f' & r' & Heq' & Hl');
      [now destruct pre | exact Heq |].
    exists f', r'. rewrite <- app_assoc in Heq'. split; [exact Heq'|].
    rewrite Hl', <- Hl, <- app_assoc. reflexivity.
  - intros l ls pre a b c (first & rest & Heq & Hl) _.
    exists first, (rest ++ [[b]; [b; c]]). split.
    + change (ls ++ [pre ++ [a; b]; [b]; [b; c]])
        with (ls ++ [pre ++ [a; b]] ++ [[b]; [b; c]]).
      now rewrite app_assoc, Heq.
    + rewrite flat_map_app, app_assoc, <- Hl, <- app_assoc. reflexivity.
Qed.

Lemma sharp_turns_snoc (threshold : Q) (l : list point) (a b c : point) :
  sharp_turns E threshold (l ++ [a; b; c]) =
  (sharp_turns E threshold (l ++ [a; b])
   + if Qle_bool (angle_between_segments E a b c) threshold then 0 else 1)%nat.
Proof.
  induction l as [|x l IH].
  - simpl. lia.
  - cbn [app sharp_turns]. rewrite IH.
    destruct l as [|y [|z l]]; cbn [app]; lia.
Qed.

(** X6: a line of at least two points with [s] turns above the threshold
    is cut into exactly [2 * s + 1] pieces. *)
Theorem explode_sharp_angles_count (coords : list point) (threshold : Q)
    (lines : list (list point)) :
  (2 <= length coords)%nat ->
  explode_sharp_angles E coords threshold = Ok lines ->
  length lines = (2 * sharp_turns E threshold coords + 1)%nat.
Proof.
  apply (explode_sharp_angles_ind threshold
           (fun l pieces =>
              length pieces = (2 * sharp_turns E threshold l + 1)%nat)).
  - reflexivity.
  - intros l ls pre a b c IH Hq. apply Qle_bool_iff in Hq.
    rewrite sharp_turns_snoc, Hq. rewrite !length_app in *. simpl in *. lia.
  - intros l ls pre a b c IH Hq. apply Qle_bool_false in Hq.
    rewrite sharp_turns_snoc, Hq. rewrite !length_app in *. simpl in *. lia.
Qed.

Lemma gentle_snoc (threshold : Q) (pre : list point) (a b c : point) :
  gentle E threshold (pre ++ [a; b]) ->
  angle_between_segments E a b c <= threshold ->
  gentle E threshold (pre ++ [a; b; c]).
Proof.
  intros Hpre Hturn. induction pre as [|x pre IH].
  - simpl. tauto.
  - cbn [app gentle] in *. destruct Hpre as [Hx Hpre]. split; [|now apply IH].
    now destruct pre as [|y [|z pre]].
Qed.

Lemma gentle_lookup (threshold : Q) (l : list point) (i : nat) (a b c : point) :
  gentle E threshold l ->
  l !! i = Some a -> l !! Datatypes.S i = Some b ->
  l !! Datatypes.S (Datatypes.S i) = Some c ->
  angle_between_segments E a b c <= threshold.
Proof.
  revert i. induction l as [|x l IH]; intros i Hg Ha Hb Hc; [discriminate|].
  destruct Hg as [Hx Hg]. destruct i as [|i]; [|exact (IH i Hg Ha Hb Hc)].
  destruct l as [|y [|z l]]; try discriminate.
  injection Ha as <-. injection Hb as <-. injection Hc as <-. exact Hx.
Qed.

Lemma explode_sharp_angles_pieces_gentle (coords : list point) (threshold : Q)
    (lines : list (list point)) :
  (2 <= length coords)%nat ->
  explode_sharp_angles E coords threshold = Ok lines ->
  Forall (gentle E threshold) lines.
Proof.
  apply (explode_sharp_angles_ind threshold
           (fun _ pieces => Forall (gentle E threshold) pieces)).
  - intros c0 c1. constructor; [simpl; tauto | constructor].
  - intros l ls pre a b c IH Hq. apply Forall_app in IH as [Hls Hcur].
    apply Forall_app. split; [exact Hls|]. constructor; [|constructor].
    apply gentle_snoc; [|exact Hq]. now inversion Hcur.
  - intros l ls pre a b c IH _. apply Forall_app in IH as [Hls Hcur].
    apply Forall_app. split; [exact Hls|].
    constructor; [now inversion Hcur|].
    constructor; [simpl; tauto|]. constructor; [simpl; tauto | constructor].
Qed.

Lemma chain_snoc {A} (R : A -> A -> Prop) (pre : list A) (a b c : A) :
  chain R (pre ++ [a; b]) -> R b c -> chain R (pre ++ [a; b; c]).
Proof.
  intros Hpre Hbc. induction pre as [|x pre IH].
  - simpl in *. tauto.
  - cbn [app chain] in *. destruct Hpre as [Hx Hpre]. split; [|now apply IH].
    now destruct pre as [|y pre].
Qed.

Lemma chain_snoc_inv {A} (R : A -> A -> Prop) (pre : list A) (a b c : A) :
  chain R (pre ++ [a; b; c]) -> chain R (pre ++ [a; b]) /\ R b c.
Proof.
  induction pre as [|x pre IH].
  - simpl. tauto.
  - cbn [app chain]. intros [Hx Hpre]. destruct (IH Hpre) as [H1 H2].
    split; [|exact H2]. split; [|exact H1]. now destruct pre as [|y pre].
Qed.

(** The pieces are runs of the input: a relation that holds between every
    two consecutive points of the input holds between every two
    consecutive points of each piece. *)
Lemma explode_sharp_angles_pieces_chain (R : point -> point -> Prop)
    (coords : list point) (threshold : Q) (lines : list (list point)) :
  (2 <= length coords)%nat ->
  explode_sharp_angles E coords threshold = Ok lines ->
  chain R coords -> Forall (chain R) lines.
Proof.
  apply (explode_sharp_angles_ind threshold
           (fun l pieces => chain R l -> Forall (chain R) pieces)).
  - intros c0 c1 H. constructor; [exact H | constructor].
  - intros l ls pre a b c IH _ H. apply chain_snoc_inv in H as [H Hbc].
    apply IH, Forall_app in H as [Hls Hcur].
    apply Forall_app. split; [exact Hls|]. constructor; [|constructor].
    apply chain_snoc; [|exact Hbc]. now inversion Hcur.
  - intros l ls pre a b c IH _ H. apply chain_snoc_inv in H as [H Hbc].
    apply IH, Forall_app in H as [Hls Hcur].
    apply Forall_app. split; [exact Hls|].
    constructor; [now inversion Hcur|].
    constructor; [simpl; tauto|]. constructor; [simpl; tauto | constructor].
Qed.

(** X7: splitting is stable: no turn inside a piece exceeds the threshold,
    so the splitter, run on a piece with the same threshold, returns that
    piece alone. *)
Theorem explode_sharp_angles_pieces_stable (coords : list point) (threshold : Q)
    (lines : list (list point)) :
  explode_sharp_angles E coords threshold = Ok lines ->
  Forall (fun piece => explode_sharp_angles E piece threshold = Ok [piece]) lines.
Proof.
  intros Hrun.
  destruct (decide (length coords < 2)%nat) as [Hshort|Hlong].
  { unfold explode_sharp_angles in Hrun.
    replace (length coords <? 3)%nat with true in Hrun
      by (symmetry; apply Nat.ltb_lt; lia).
    injection Hrun as <-. constructor; [|constructor].
    unfold explode_sharp_angles.
    now replace (length coords <? 3)%nat with true
      by (symmetry; apply Nat.ltb_lt; lia). }
  assert (Hlen : (2 <= length coords)%nat) by lia.
  eapply Forall_impl;
    [exact (explode_sharp_angles_pieces_gentle _ _ _ Hlen Hrun)|].
  intros piece Hg. apply explode_sharp_angles_gentle.
  intros i a b c. now apply gentle_lookup.
Qed.

End ExplodeMore.

Lemma explode_sharp_angles_rejoin_witness :
  exists first rest,
    [[(0, 0); (0, 50)]; [(0, 50)]; [(0, 50); (50, 50)]] = first :: rest
    /\ [(0, 0); (0, 50); (50, 50)] = first ++ flat_map (drop 1) rest.
Proof.
  exact (explode_sharp_angles_rejoin flat [(0, 0); (0, 50); (50, 50)] 45
           [[(0, 0); (0, 50)]; [(0, 50)]; [(0, 50); (50, 50)]] eq_refl).
Defined.

Lemma explode_sharp_angles_count_witness :
  length [[(0, 0); (0, 50)]; [(0, 50)]; [(0, 50); (50, 50)]] = 3%nat.
Proof.
  etransitivity; [|reflexivity].
  exact (explode_sharp_angles_count flat [(0, 0); (0, 50); (50, 50)] 45
           [[(0, 0); (0, 50)]; [(0, 50)]; [(0, 50); (50, 50)]]
           ltac:(simpl; lia) eq_refl).
Defined.

Lemma explode_sharp_angles_pieces_stable_witness :
  Forall (fun piece => explode_sharp_angles flat piece 45 = Ok [piece])
    [[(0, 0); (0, 50)]; [(0, 50)]; [(0, 50); (50, 50)]].
Proof.
  exact (explode_sharp_angles_pieces_stable flat [(0, 0); (0, 50); (50, 50)] 45
           [[(0, 0); (0, 50)]; [(0, 50)]; [(0, 50); (50, 50)]] eq_refl).
Defined.

(** ** More on the ring of a line *)

Lemma for_range_Raise_inv {S} (Inv : S -> Prop) (P : exn -> Prop)
    start count (body : nat -> S -> result S) s e :
  (forall i s1 s2, (start <= i < start + count)%nat ->
     Inv s1 -> body i s1 = Ok s2 -> Inv s2) ->
  (forall i s1 e', (start <= i < start + count)%nat ->
     Inv s1 -> body i s1 = Raise e' -> P e') ->
  Inv s -> for_range start count body s = Raise e -> P e.
Proof.
  revert start s. induction count as [|k IH]; intros start s Hok Hraise Hinv H.
  - discriminate.
  - rewrite for_range_S in H. destruct (body start s) as [s1|e1] eqn:Hb.
    + cbn [bind] in H. apply (IH (Datatypes.S start) s1); try assumption.
      * intros i x y Hi. apply Hok. lia.
      * intros i x y Hi. apply Hraise. lia.
      * apply (Hok start s s1); [lia | assumption..].
    + injection H as <-. apply (Hraise start s e1); [lia | assumption..].
Qed.

Lemma for_range_Ok_step {S} start count (body : nat -> S -> result S) s s' :
  for_range start count body s = Ok s' ->
  forall i, (start <= i < start + count)%nat ->
    exists s1 s2, body i s1 = Ok s2.
Proof.
  revert start s. induction count as [|k IH]; intros start s H i Hi; [lia|].
  rewrite for_range_S in H. apply bind_Ok in H as (s1 & Hb & H).
  destruct (decide (i = start)) as [->|Hne]; [eauto|].
  apply (IH _ _ H). lia.
Qed.

Section RingMore.

Context (E : externals).

Lemma segment_normal_mag (c0 c1 : point) (half_width : Q) x :
  segment_normal E c0 c1 half_width = Ok x -> ~ segment_mag E c0 c1 == 0.
Proof.
  unfold segment_normal, segment_mag, planar.
  destruct (WGS_TO_MERCATOR E c0.1 c0.2) as [p0x p0y].
  destruct (WGS_TO_MERCATOR E c1.1 c1.2) as [p1x p1y]. cbn [fst snd].
  intros H. apply bind_Ok in H as (dx & Hdx & _).
  unfold py_div in Hdx. destruct (Qeq_bool _ 0) eqn:Hz; [discriminate|].
  intros Hmag. apply Qeq_bool_iff in Hmag. congruence.
Qed.

Lemma ring_step_mag (fc : list point) (half_width : Q) (n i : nat)
    (arr arr' : list coordinates) (a b : point) :
  ring_step E fc half_width n i arr = Ok arr' ->
  fc !! (i - 1)%nat = Some a -> fc !! i = Some b ->
  ~ segment_mag E a b == 0.
Proof.
  unfold ring_step. intros H Ha Hb.
  rewrite (index_lookup _ _ _ Ha), (index_lookup _ _ _ Hb) in H. cbn [bind] in H.
  apply bind_Ok in H as (x & Hx & _). eapply segment_normal_mag; eauto.
Qed.

(** With at least two points, [line_ring] returns exactly when no planar
    segment has length zero, and otherwise the division raises. *)
Lemma line_ring_mag (fc : list point) (half_width : Q) (r : obj) :
  (2 <= length fc)%nat ->
  line_ring E fc half_width (2 * length fc)
    (replicate (2 * length fc + 1) Null) = Ok r ->
  forall i a b, fc !! i = Some a -> fc !! Datatypes.S i = Some b ->
    ~ segment_mag E a b == 0.
Proof.
  intros Hlen H i a b Ha Hb. unfold line_ring in H.
  apply bind_Ok in H as (c0 & Hc0 & H). apply bind_Ok in H as (c1 & Hc1 & H).
  apply bind_Ok in H as (x & Hx & H).
  destruct x as [[[p0x p0y] p1] [nx ny]].
  apply bind_Ok in H as (arr1 & _ & H). apply bind_Ok in H as (arr2 & _ & H).
  apply bind_Ok in H as (first & _ & H). apply bind_Ok in H as (arr3 & _ & H).
  apply bind_Ok in H as (ring & Hloop & _).
  pose proof (lookup_lt_Some _ _ _ Hb) as Hi.
  destruct (for_range_Ok_step _ _ _ _ _ Hloop (Datatypes.S i) ltac:(lia))
    as (s1 & s2 & Hstep).
  apply (ring_step_mag _ _ _ _ _ _ a b Hstep); [|assumption].
  now replace (Datatypes.S i - 1)%nat with i by lia.
Qed.

Lemma line_ring_Raise_zero (fc : list point) (half_width : Q) (e : exn) :
  (2 <= length fc)%nat ->
  line_ring E fc half_width (2 * length fc)
    (replicate (2 * length fc + 1) Null) = Raise e ->
  e = ZeroDivisionError.
Proof.
  intros Hlen H. unfold line_ring in H.
  assert (is_Some (fc !! 0%nat)) as [c0 Hc0] by (apply lookup_lt_is_Some; lia).
  assert (is_Some (fc !! 1%nat)) as [c1 Hc1] by (apply lookup_lt_is_Some; lia).
  rewrite (index_lookup _ _ _ Hc0), (index_lookup _ _ _ Hc1) in H. cbn [bind] in H.
  apply bind_Raise in H as [H | ([[[p0x p0y] p1] [nx ny]] & _ & H)];
    [now apply segment_normal_Raise in H|].
  rewrite assign_Ok in H by (rewrite length_replicate; lia). cbn [bind] in H.
  rewrite assign_Ok in H by (rewrite length_insert, length_replicate; lia).
  cbn [bind] in H.
  apply bind_Raise in H as [H | (first & _ & H)].
  { unfold index in H. rewrite list_lookup_insert_ne in H by lia.
    rewrite list_lookup_insert_eq in H by (rewrite length_replicate; lia).
    discriminate. }
  rewrite assign_Ok in H by (rewrite !length_insert, length_replicate; lia).
  cbn [bind] in H.
  apply bind_Raise in H as [H | (arr & _ & H)]; [|discriminate].
  revert H.
  apply (for_range_Raise_inv
           (fun arr => length arr = (2 * length fc + 1)%nat)
           (fun e => e = ZeroDivisionError)).
  - intros i s1 s2 Hi Hinv Hstep.
    apply ring_step_inv in Hstep as (a & b & _ & _ & _ & _ & ->).
    now rewrite !length_insert.
  - intros i s1 e' Hi Hinv Hstep. unfold ring_step in Hstep.
    assert (is_Some (fc !! (i - 1)%nat)) as [a Ha] by (apply lookup_lt_is_Some; lia).
    assert (is_Some (fc !! i)) as [b Hb] by (apply lookup_lt_is_Some; lia).
    rewrite (index_lookup _ _ _ Ha), (index_lookup _ _ _ Hb) in Hstep.
    cbn [bind] in Hstep.
    apply bind_Raise in Hstep as [Hstep | ([[q0 [p1x p1y]] [mx my]] & _ & Hstep)];
      [now apply segment_normal_Raise in Hstep|].
    rewrite assign_Ok in Hstep by lia. cbn [bind] in Hstep.
    rewrite assign_Ok in Hstep by (rewrite length_insert; lia). discriminate.
  - now rewrite !length_insert, length_replicate.
Qed.

End RingMore.

(** ** More on buffering a line string *)

Lemma chain_impl {A} (R R' : A -> A -> Prop) (l : list A) :
  (forall a b, R a b -> R' a b) -> chain R l -> chain R' l.
Proof.
  intros Himpl. induction l as [|a l IH]; [auto|].
  cbn [chain]. intros [Ha Hl]. split; [|now apply IH].
  destruct l; [exact I | now apply Himpl].
Qed.

Lemma Forall2_Forall_transfer {A B} (R : A -> B -> Prop) (P : A -> Prop)
    (P' : B -> Prop) (l : list A) (k : list B) :
  (forall x y, P x -> R x y -> P' y) ->
  Forall2 R l k -> Forall P l -> Forall P' k.
Proof.
  intros Hstep H2. induction H2 as [|x y l k Hxy _ IH]; intros Hl.
  - constructor.
  - inversion Hl; subst. constructor; eauto.
Qed.

Section BufferMore.

Context (E : externals).

Lemma geojson_linestring_to_poly_unsplit (linestring : obj) (width : Q)
    (fc : list point) :
  filter_small_segments E linestring width = Ok fc ->
  (2 <= length fc)%nat ->
  explode_sharp_angles E fc DEFAULT_THRESHOLD = Ok [fc] ->
  geojson_linestring_to_poly E linestring width
  = line_ring E fc (width / 2) (2 * length fc)
      (replicate (2 * length fc + 1) Null).
Proof.
  intros Hf Hlen Hone. rewrite (geojson_linestring_to_poly_eq E _ _ _ Hf).
  replace (length fc <? 2)%nat with false by (symmetry; apply Nat.ltb_ge; lia).
  now rewrite Hone.
Qed.

(** A polygon returned for at least two filtered points comes from
    [line_ring]. *)
Lemma geojson_linestring_to_poly_polygon_inv (linestring : obj) (width : Q)
    (fc : list point) (c : coordinates) :
  filter_small_segments E linestring width = Ok fc ->
  (2 <= length fc)%nat ->
  geojson_linestring_to_poly E linestring width
  = Ok (FeatureObj (Geometry "Polygon" c)) ->
  line_ring E fc (width / 2) (2 * length fc)
    (replicate (2 * length fc + 1) Null)
  = Ok (FeatureObj (Geometry "Polygon" c)).
Proof.
  intros Hf Hlen H. rewrite (geojson_linestring_to_poly_eq E _ _ _ Hf) in H.
  replace (length fc <? 2)%nat with false in H
    by (symmetry; apply Nat.ltb_ge; lia).
  apply bind_Ok in H as (lines & _ & H).
  destruct (1 <? length lines)%nat; [|exact H].
  apply bind_Ok in H as (polys & _ & H). apply bind_Ok in H as (cs & _ & H).
  discriminate.
Qed.

(** X8: the ring of a line that was not split has [2 * len + 1] entries,
    all of them positions (nothing of the pre-sized array is left
    unset); it starts at the first point displaced along the normal of
    the first segment, has the opposite displacement of that point as its
    last entry but one, and ends where it starts. *)
Theorem line_ring_filled (linestring : obj) (width : Q) (fc : list point)
    (ring : list coordinates) :
  filter_small_segments E linestring width = Ok fc ->
  (2 <= length fc)%nat ->
  geojson_linestring_to_poly E linestring width
  = Ok (FeatureObj (Geometry "Polygon" (Items [Items ring]))) ->
  length ring = (2 * length fc + 1)%nat
  /\ Forall is_position ring
  /\ exists c0 c1,
       fc !! 0%nat = Some c0 /\ fc !! 1%nat = Some c1
       /\ ring !! 0%nat
          = Some (Position (displaced E c0 (unit_normal E c0 c1) (width / 2)))
       /\ ring !! (2 * length fc - 1)%nat
          = Some (Position (displaced_back E c0 (unit_normal E c0 c1) (width / 2)))
       /\ ring !! (2 * length fc)%nat = ring !! 0%nat.
Proof.
  intros Hf Hlen H.
  apply (geojson_linestring_to_poly_polygon_inv _ _ _ _ Hf Hlen) in H.
  apply line_ring_inv in H
    as (ring' & c0 & c1 & Hc0 & Hc1 & [= <-] & Hl & H0 & Hlast & Hn & Hset);
    [|assumption].
  split; [exact Hl|]. split; [|exists c0, c1; auto].
  apply Forall_lookup. intros j x Hj.
  pose proof (lookup_lt_Some _ _ _ Hj) as Hjlt. rewrite Hl in Hjlt.
  destruct (decide (j = 0)%nat) as [->|Hj0].
  { rewrite H0 in Hj. now injection Hj as <-. }
  destruct (decide (j = 2 * length fc)%nat) as [->|Hjn].
  { rewrite Hn, H0 in Hj. now injection Hj as <-. }
  destruct (decide (j = 2 * length fc - 1)%nat) as [->|Hjn1].
  { rewrite Hlast in Hj. now injection Hj as <-. }
  destruct (decide (j < length fc)%nat) as [Hfwd|Hbwd].
  - assert (is_Some (fc !! (j - 1)%nat)) as [a Ha] by (apply lookup_lt_is_Some; lia).
    assert (is_Some (fc !! j)) as [b Hb] by (apply lookup_lt_is_Some; lia).
    destruct (Hset j a b ltac:(lia) Ha Hb) as [Hfw _].
    rewrite Hfw in Hj. now injection Hj as <-.
  - set (i := (2 * length fc - j - 1)%nat).
    assert (is_Some (fc !! (i - 1)%nat)) as [a Ha]
      by (apply lookup_lt_is_Some; unfold i; lia).
    assert (is_Some (fc !! i)) as [b Hb]
      by (apply lookup_lt_is_Some; unfold i; lia).
    destruct (Hset i a b ltac:(unfold i; lia) Ha Hb) as [_ Hbw].
    replace (2 * length fc - i - 1)%nat with j in Hbw by (unfold i; lia).
    rewrite Hbw in Hj. now injection Hj as <-.
Qed.

(** X9: a line of two filtered points, a positive planar distance apart,
    becomes the four-cornered ring [c0 + n, c1 + n, c1 - n, c0 - n] and
    back to [c0 + n], with [n] the normal of the one segment scaled to
    half the width. *)
Theorem two_point_line_ring (linestring : obj) (width : Q) (c0 c1 : point) :
  filter_small_segments E linestring width = Ok [c0; c1] ->
  ~ segment_mag E c0 c1 == 0 ->
  geojson_linestring_to_poly E linestring width
  = Ok (FeatureObj (Geometry "Polygon" (Items [Items
      [Position (displaced E c0 (unit_normal E c0 c1) (width / 2));
       Position (displaced E c1 (unit_normal E c0 c1) (width / 2));
       Position (displaced_back E c1 (unit_normal E c0 c1) (width / 2));
       Position (displaced_back E c0 (unit_normal E c0 c1) (width / 2));
       Position (displaced E c0 (unit_normal E c0 c1) (width / 2))]]))).
Proof.
  intros Hf Hmag.
  rewrite (geojson_linestring_to_poly_unsplit _ _ _ Hf) by (simpl; (lia || reflexivity)).
  destruct (line_ring_Ok E [c0; c1] (width / 2)) as [r Hr]; [|simpl; lia|].
  { intros [|[|i]] a b Ha Hb; try discriminate.
    injection Ha as <-. injection Hb as <-. exact Hmag. }
  rewrite Hr.
  apply line_ring_inv in Hr
    as (ring & a0 & a1 & [= <-] & [= <-] & -> & Hl & H0 & Hlast & Hn & Hset);
    [|simpl; lia].
  destruct (Hset 1%nat c0 c1 ltac:(simpl; lia) eq_refl eq_refl) as [H1 H2].
  cbn [length Nat.mul Nat.add Nat.sub] in *. rewrite H0 in Hn.
  destruct ring as [|r0 [|r1 [|r2 [|r3 [|r4 [|r5 ring]]]]]]; try discriminate.
  injection H0 as ->. injection H1 as ->. injection H2 as ->.
  injection Hlast as ->. injection Hn as ->. reflexivity.
Qed.

(** X10: for a line that is not split and keeps at least two points, the
    line buffer returns exactly when no planar segment has length zero;
    the only exception it can raise is the division by that zero. *)
Theorem line_buffer_zero_division (linestring : obj) (width : Q)
    (fc : list point) :
  filter_small_segments E linestring width = Ok fc ->
  (2 <= length fc)%nat ->
  gentle E DEFAULT_THRESHOLD fc ->
  ((exists r, geojson_linestring_to_poly E linestring width = Ok r)
   <-> (forall i a b, fc !! i = Some a -> fc !! Datatypes.S i = Some b ->
          ~ segment_mag E a b == 0))
  /\ (forall e, geojson_linestring_to_poly E linestring width = Raise e ->
        e = ZeroDivisionError).
Proof.
  intros Hf Hlen Hgentle.
  assert (Hone : explode_sharp_angles E fc DEFAULT_THRESHOLD = Ok [fc]).
  { apply explode_sharp_angles_gentle. intros i a b c.
    now apply gentle_lookup. }
  rewrite (geojson_linestring_to_poly_unsplit _ _ _ Hf Hlen Hone).
  split; [split|].
  - intros [r Hr]. now apply (line_ring_mag E _ _ _ Hlen Hr).
  - intros Hmag. now apply line_ring_Ok.
  - intros e. now apply line_ring_Raise_zero.
Qed.

(** X11: the recursion on the pieces of a split line ends: with any fuel
    above the number of input points the bounded function is the function
    itself, which never reports an exhausted depth. *)
Theorem geojson_linestring_to_poly_terminates (linestring : obj) (width : Q)
    (fuel : nat) :
  (items_length (get_coords linestring) < fuel)%nat ->
  geojson_linestring_to_poly_rec E fuel linestring width
  = geojson_linestring_to_poly E linestring width
  /\ geojson_linestring_to_poly E linestring width <> Raise RecursionError.
Proof.
  intros Hfuel. split; [now apply geojson_linestring_to_poly_fuel|].
  intros H. now apply geojson_linestring_to_poly_Raise in H.
Qed.

(** X12: with at least two filtered points, the kind of the result
    follows the splitter: one piece gives a polygon of one ring of
    [2 * len + 1] entries, several pieces give a multi-polygon with one
    entry per piece. *)
Theorem geojson_linestring_to_poly_kind (linestring : obj) (width : Q)
    (fc : list point) (lines : list (list point)) (r : obj) :
  filter_small_segments E linestring width = Ok fc ->
  (2 <= length fc)%nat ->
  explode_sharp_angles E fc DEFAULT_THRESHOLD = Ok lines ->
  geojson_linestring_to_poly E linestring width = Ok r ->
  ((length lines <= 1)%nat ->
     exists ring,
       r = FeatureObj (Geometry "Polygon" (Items [Items ring]))
       /\ length ring = (2 * length fc + 1)%nat)
  /\ ((1 < length lines)%nat ->
        exists cs,
          r = FeatureObj (Geometry "MultiPolygon" (Items cs))
          /\ length cs = length lines).
Proof.
  intros Hf Hlen Hl H. rewrite (geojson_linestring_to_poly_eq E _ _ _ Hf) in H.
  replace (length fc <? 2)%nat with false in H
    by (symmetry; apply Nat.ltb_ge; lia).
  rewrite Hl in H. cbn [bind] in H. split; intros Hn.
  - replace (1 <? length lines)%nat with false in H
      by (symmetry; apply Nat.ltb_ge; lia).
    apply line_ring_buffered in H as (ring & -> & Hring & _); [|assumption].
    now exists ring.
  - replace (1 <? length lines)%nat with true in H
      by (symmetry; apply Nat.ltb_lt; lia).
    apply bind_Ok in H as (polys & Hpolys & H).
    apply bind_Ok in H as (cs & Hcs & H). injection H as <-.
    exists cs. split; [reflexivity|].
    apply comprehension_Ok, Forall2_length in Hpolys, Hcs. congruence.
Qed.

(** A piece whose points are far enough apart for the default width, and
    that has no sharp turn, is buffered to a polygon of one closed ring. *)
Lemma piece_polygon (piece : list point) (y : obj) :
  chain (far E DEFAULT_WIDTH) piece ->
  gentle E DEFAULT_THRESHOLD piece ->
  geojson_linestring_to_poly E (line_string piece) DEFAULT_WIDTH = Ok y ->
  exists ring,
    y = FeatureObj (Geometry "Polygon" (Items [Items ring])) /\ closed_ring ring.
Proof.
  intros Hfar Hgentle H.
  assert (Hf : filter_small_segments E (line_string piece) DEFAULT_WIDTH = Ok piece)
    by now apply filter_small_segments_fixed.
  rewrite (geojson_linestring_to_poly_eq E _ _ _ Hf) in H.
  destruct (length piece <? 2)%nat eqn:Hlen.
  - apply bind_Ok in H as (c & _ & H).
    destruct (point_to_square_buffered E c DEFAULT_WIDTH) as (ring & Hsq & _ & Hring).
    rewrite Hsq in H. injection H as <-. now exists ring.
  - apply Nat.ltb_ge in Hlen.
    rewrite (explode_sharp_angles_gentle E piece DEFAULT_THRESHOLD) in H.
    2:{ intros i a b c. now apply gentle_lookup. }
    cbn [bind length] in H. change (1 <? 1)%nat with false in H. cbv iota in H.
    apply line_ring_buffered in H as (ring & -> & _ & Hring); [|assumption].
    now exists ring.
Qed.

(** X13: with a width of at least the default width, the multi-polygon
    of a split line is flat: each of its entries is the coordinates of a
    polygon of one closed ring, never of a further multi-polygon. *)
Theorem wide_multipolygon_flat (linestring : obj) (width : Q)
    (cs : list coordinates) :
  DEFAULT_WIDTH <= width ->
  geojson_linestring_to_poly E linestring width
  = Ok (FeatureObj (Geometry "MultiPolygon" (Items cs))) ->
  Forall (fun c => exists ring, c = Items [Items ring] /\ closed_ring ring) cs.
Proof.
  intros Hw H.
  destruct (filter_small_segments E linestring width) as [fc|e] eqn:Hf.
  2:{ unfold geojson_linestring_to_poly in H.
      now rewrite (geojson_linestring_to_poly_rec_filter_Raise E _ _ _ _ Hf) in H. }
  rewrite (geojson_linestring_to_poly_eq E _ _ _ Hf) in H.
  destruct (length fc <? 2)%nat eqn:Hlen.
  { apply bind_Ok in H as (c & _ & H). now rewrite point_to_square_eq in H. }
  apply Nat.ltb_ge in Hlen. apply bind_Ok in H as (lines & Hl & H).
  destruct (1 <? length lines)%nat.
  2:{ now apply line_ring_buffered in H as (ring & [=] & _). }
  apply bind_Ok in H as (polys & Hpolys & H).
  apply bind_Ok in H as (cs' & Hcs & H). injection H as ->.
  apply comprehension_Ok in Hpolys, Hcs.
  assert (Hpieces : Forall (fun piece => chain (far E DEFAULT_WIDTH) piece
                                         /\ gentle E DEFAULT_THRESHOLD piece) lines).
  { apply Forall_and. split.
    - apply (explode_sharp_angles_pieces_chain E _ fc DEFAULT_THRESHOLD);
        [assumption..|].
      apply (chain_impl (far E width)); [|now apply filter_small_segments_chain in Hf].
      unfold far. intros a b Hab. eapply Qle_trans; eauto.
    - now apply (explode_sharp_angles_pieces_gentle E fc). }
  assert (Hrings : Forall (fun y => exists ring,
                      y = FeatureObj (Geometry "Polygon" (Items [Items ring]))
                      /\ closed_ring ring) polys).
  { eapply Forall2_Forall_transfer; [|exact Hpolys|exact Hpieces].
    intros piece y [Hfar Hgentle] Hy. now apply piece_polygon in Hy. }
  eapply Forall2_Forall_transfer; [|exact Hcs|exact Hrings].
  intros y c (ring & -> & Hring) Hc. injection Hc as <-. now exists ring.
Qed.

End BufferMore.

Lemma line_ring_filled_witness :
  exists ring,
    geojson_linestring_to_poly flat (line_string [(0, 0); (30, 0); (60, 40)]) 10
    = Ok (FeatureObj (Geometry "Polygon" (Items [Items ring])))
    /\ length ring = 7%nat /\ Forall is_position ring.
Proof.
  eexists. split; [vm_compute; reflexivity|].
  match goal with
  | |- length ?r = _ /\ _ =>
    destruct (line_ring_filled flat (line_string [(0, 0); (30, 0); (60, 40)]) 10
                [(0, 0); (30, 0); (60, 40)] r eq_refl ltac:(simpl; lia) eq_refl)
      as (H1 & H2 & _)
  end.
  split; [exact H1 | exact H2].
Defined.

Lemma two_point_line_ring_witness :
  geojson_linestring_to_poly flat (line_string [(0, 0); (0, 50)]) 10
  = Ok (FeatureObj (Geometry "Polygon" (Items [Items
      [Position (displaced flat (0, 0) (unit_normal flat (0, 0) (0, 50)) (10 / 2));
       Position (displaced flat (0, 50) (unit_normal flat (0, 0) (0, 50)) (10 / 2));
       Position (displaced_back flat (0, 50) (unit_normal flat (0, 0) (0, 50)) (10 / 2));
       Position (displaced_back flat (0, 0) (unit_normal flat (0, 0) (0, 50)) (10 / 2));
       Position (displaced flat (0, 0) (unit_normal flat (0, 0) (0, 50)) (10 / 2))]]))).
Proof.
  apply (two_point_line_ring flat (line_string [(0, 0); (0, 50)]) 10
           (0, 0) (0, 50) eq_refl).
  discriminate.
Defined.

(** A repeated point survives a filter of width 0, and the line buffer
    does not return. *)
Lemma line_buffer_zero_division_witness :
  ~ exists r, geojson_linestring_to_poly flat (line_string [(0, 0); (0, 0)]) 0 = Ok r.
Proof.
  destruct (line_buffer_zero_division flat (line_string [(0, 0); (0, 0)]) 0
              [(0, 0); (0, 0)] eq_refl ltac:(simpl; lia) ltac:(simpl; tauto))
    as [[Hok _] _].
  intros Hr. apply (Hok Hr 0%nat (0, 0) (0, 0) eq_refl eq_refl). reflexivity.
Defined.

Lemma geojson_linestring_to_poly_terminates_witness :
  geojson_linestring_to_poly_rec flat 10
    (line_string [(0, 0); (0, 50); (50, 50)]) 10
  = geojson_linestring_to_poly flat (line_string [(0, 0); (0, 50); (50, 50)]) 10.
Proof.
  apply (geojson_linestring_to_poly_terminates flat
           (line_string [(0, 0); (0, 50); (50, 50)]) 10 10).
  simpl. lia.
Defined.

Lemma geojson_linestring_to_poly_kind_witness :
  exists cs,
    geojson_linestring_to_poly flat (line_string [(0, 0); (0, 50); (50, 50)]) 10
    = Ok (FeatureObj (Geometry "MultiPolygon" (Items cs)))
    /\ length cs = 3%nat.
Proof.
  destruct (geojson_linestring_to_poly flat
              (line_string [(0, 0); (0, 50); (50, 50)]) 10) as [r|e] eqn:Hr;
    [|vm_compute in Hr; discriminate Hr].
  destruct (geojson_linestring_to_poly_kind flat
              (line_string [(0, 0); (0, 50); (50, 50)]) 10
              [(0, 0); (0, 50); (50, 50)]
              [[(0, 0); (0, 50)]; [(0, 50)]; [(0, 50); (50, 50)]] r
              eq_refl ltac:(simpl; lia) eq_refl Hr) as [_ H].
  destruct (H ltac:(simpl; lia)) as (cs & -> & Hlen).
  exists cs. split; [reflexivity | exact Hlen].
Defined.

Lemma wide_multipolygon_flat_witness :
  exists cs,
    geojson_linestring_to_poly flat (line_string [(0, 0); (0, 50); (50, 50)]) 30
    = Ok (FeatureObj (Geometry "MultiPolygon" (Items cs)))
    /\ Forall (fun c => exists ring, c = Items [Items ring] /\ closed_ring ring) cs.
Proof.
  eexists. split; [vm_compute; reflexivity|].
  apply (wide_multipolygon_flat flat
           (line_string [(0, 0); (0, 50); (50, 50)]) 30);
    [discriminate | vm_compute; reflexivity].
Defined.

(** ** More on the point buffer and the dispatcher *)

Section DispatchMore.

Context (E : externals).

(** X14: what the dispatcher returns is a feature for points and line
    strings, with a buffered geometry, and the bare input geometry,
    outside any feature, for polygons and multi-polygons. *)
Theorem convert_to_geojson_poly_shape (geom : geometry) (width : Q) (r : obj) :
  convert_to_geojson_poly E (FeatureObj geom) width = Ok r ->
  ((gtype geom = "LineString" \/ gtype geom = "Point")
   /\ exists g, r = FeatureObj g /\ buffered g)
  \/ ((gtype geom = "Polygon" \/ gtype geom = "MultiPolygon")
      /\ r = GeometryObj geom).
Proof.
  unfold convert_to_geojson_poly.
  destruct (String.eqb_spec (gtype geom) "LineString") as [Hl|Hl].
  { intros H. left. split; [now left|].
    now apply geojson_linestring_to_poly_rec_buffered in H. }
  destruct (String.eqb_spec (gtype geom) "Point") as [Hp|Hp].
  { intros H. left. split; [now right|].
    unfold geojson_point_to_poly in H. apply bind_Ok in H as (c & _ & H).
    destruct (point_to_square_buffered E c width) as (ring & Hsq & _ & Hring).
    rewrite Hsq in H. injection H as <-.
    eexists. split; [reflexivity|]. now constructor. }
  destruct (String.eqb_spec (gtype geom) "Polygon") as [Hg|Hg].
  { intros [= <-]. right. split; [now left | reflexivity]. }
  destruct (String.eqb_spec (gtype geom) "MultiPolygon") as [Hm|Hm].
  { intros [= <-]. right. split; [now right | reflexivity]. }
  discriminate.
Qed.

(** X15: the buffer of a point is the image of an axis-aligned planar
    square: four corners [q0 .. q3] with sides of length [width], centred
    on the projected point, then [q0] again. *)
Theorem point_square_sides (pt : obj) (p : point) (width : Q) :
  get_coords pt = Position p ->
  exists q0 q1 q2 q3 : point,
    geojson_point_to_poly E pt width
    = Ok (FeatureObj (Geometry "Polygon" (Items [Items
        (map (fun q : point => Position (MERCATOR_TO_WGS E q.1 q.2))
           [q0; q1; q2; q3; q0])])))
    /\ (q1.1 - q0.1 == width /\ q1.2 == q0.2)
    /\ (q2.1 == q1.1 /\ q2.2 - q1.2 == width)
    /\ (q2.1 - q3.1 == width /\ q3.2 == q2.2)
    /\ (q3.1 == q0.1 /\ q3.2 - q0.2 == width)
    /\ (q0.1 + q2.1 == 2 * (planar E p).1
        /\ q0.2 + q2.2 == 2 * (planar E p).2).
Proof.
  intros Hp. unfold geojson_point_to_poly. rewrite Hp. cbn [as_position bind].
  rewrite point_to_square_eq. cbv zeta.
  set (cx := (planar E p).1). set (cy := (planar E p).2).
  exists (cx - width / 2, cy - width / 2), (cx + width / 2, cy - width / 2),
    (cx + width / 2, cy + width / 2), (cx - width / 2, cy + width / 2).
  split; [reflexivity|]. cbn [fst snd].
  repeat split; field.
Qed.

End DispatchMore.

Lemma convert_to_geojson_poly_shape_witness :
  exists g,
    convert_to_geojson_poly flat
      (FeatureObj (Geometry "Point" (Position (10, 20)))) 4 = Ok (FeatureObj g)
    /\ buffered g.
Proof.
  destruct (convert_to_geojson_poly flat
              (FeatureObj (Geometry "Point" (Position (10, 20)))) 4)
    as [r|e] eqn:Hr; [|vm_compute in Hr; discriminate Hr].
  destruct (convert_to_geojson_poly_shape flat
              (Geometry "Point" (Position (10, 20))) 4 r Hr)
    as [[_ (g & -> & Hb)] | [[H | H] _]]; [|discriminate H..].
  exists g. split; [reflexivity | exact Hb].
Defined.

Lemma point_square_sides_witness :
  exists q0 q1 q2 q3 : point,
    geojson_point_to_poly flat (GeometryObj (Geometry "Point" (Position (10, 20)))) 4
    = Ok (FeatureObj (Geometry "Polygon" (Items [Items
        (map (fun q : point => Position (MERCATOR_TO_WGS flat q.1 q.2))
           [q0; q1; q2; q3; q0])])))
    /\ q1.1 - q0.1 == 4.
Proof.
  destruct (point_square_sides flat
              (GeometryObj (Geometry "Point" (Position (10, 20)))) (10, 20) 4
              eq_refl) as (q0 & q1 & q2 & q3 & H & [Hside _] & _).
  exists q0, q1, q2, q3. split; [exact H | exact Hside].
Defined.

(** ** The batch driver *)

Lemma for_each_append {A B} (g : A -> result B) (l : list A) (acc : list B) :
  for_each l (fun f polygons => poly <- g f ;; Ok (polygons ++ [poly])) acc
  = (ys <- comprehension g l ;; Ok (acc ++ ys)).
Proof.
  revert acc. induction l as [|x l IH]; intros acc.
  - simpl. now rewrite app_nil_r.
  - cbn [for_each comprehension]. destruct (g x) as [y|e]; [|reflexivity].
    cbn [bind]. rewrite IH.
    destruct (comprehension g l) as [ys|e]; [|reflexivity].
    cbn [bind]. now rewrite <- app_assoc.
Qed.

Lemma comprehension_abort {A B} (g : A -> result B) (pre post : list A)
    (x : A) (e : exn) :
  Forall (fun a => exists b, g a = Ok b) pre ->
  g x = Raise e ->
  comprehension g (pre ++ x :: post) = Raise e.
Proof.
  intros Hpre Hx. induction Hpre as [|a pre [b Hb] _ IH].
  - simpl. now rewrite Hx.
  - cbn [app comprehension]. now rewrite Hb, IH.
Qed.

Section BatchMore.

Context (E : externals) (shapefile_features : string -> result (list obj)).

Lemma transform_outcome (file_path : string) (width : Q) (verbose : bool) :
  (transform_shapefile_to_geojson_polygons E shapefile_features
     file_path width verbose).2
  = (features <- shapefile_features file_path ;;
     comprehension (fun f => convert_to_geojson_poly E f width) features).
Proof.
  unfold transform_shapefile_to_geojson_polygons.
  destruct (shapefile_features file_path) as [features|e]; [|reflexivity].
  destruct verbose; [|reflexivity]. cbn [snd bind].
  rewrite for_each_append.
  now destruct (comprehension _ features).
Qed.

(** X16: the verbosity flag changes what is printed, not what is
    returned: the verbose loop and the quiet comprehension give the same
    outcome, and the quiet run prints nothing. *)
Theorem transform_verbose_same (file_path : string) (width : Q) :
  (transform_shapefile_to_geojson_polygons E shapefile_features
     file_path width true).2
  = (transform_shapefile_to_geojson_polygons E shapefile_features
       file_path width false).2
  /\ (transform_shapefile_to_geojson_polygons E shapefile_features
        file_path width false).1 = [].
Proof.
  split; [now rewrite !transform_outcome|].
  unfold transform_shapefile_to_geojson_polygons.
  now destruct (shapefile_features file_path).
Qed.

(** X17: the batch converts feature by feature, in order: on success
    there is one result per feature, that of the dispatcher; the first
    feature whose conversion raises ends the whole batch with its
    exception. *)
Theorem transform_pointwise (file_path : string) (width : Q) (verbose : bool)
    (features : list obj) :
  shapefile_features file_path = Ok features ->
  (forall out,
     (transform_shapefile_to_geojson_polygons E shapefile_features
        file_path width verbose).2 = Ok out ->
     Forall2 (fun f r => convert_to_geojson_poly E f width = Ok r) features out)
  /\ (forall pre f post e,
        features = pre ++ f :: post ->
        Forall (fun x => exists r, convert_to_geojson_poly E x width = Ok r) pre ->
        convert_to_geojson_poly E f width = Raise e ->
        (transform_shapefile_to_geojson_polygons E shapefile_features
           file_path width verbose).2 = Raise e).
Proof.
  intros Hread. rewrite transform_outcome, Hread. cbn [bind]. split.
  - intros out. apply comprehension_Ok.
  - intros pre f post e -> Hpre Hf. now apply comprehension_abort.
Qed.

End BatchMore.

(** A shapefile of a point and a geometry collection: the batch ends
    with the exception of the second feature. *)
Lemma transform_pointwise_witness :
  (transform_shapefile_to_geojson_polygons flat
     (fun _ => Ok [FeatureObj (Geometry "Point" (Position (10, 20)));
                   FeatureObj (Geometry "GeometryCollection" Null)])
     "roads.shp" 10 true).2
  = Raise (Exception "Unsupported type: GeometryCollection").
Proof.
  destruct (transform_pointwise flat
              (fun _ => Ok [FeatureObj (Geometry "Point" (Position (10, 20)));
                            FeatureObj (Geometry "GeometryCollection" Null)])
              "roads.shp" 10 true _ eq_refl) as [_ H].
  apply (H [FeatureObj (Geometry "Point" (Position (10, 20)))]
           (FeatureObj (Geometry "GeometryCollection" Null)) []);
    [reflexivity | | reflexivity].
  constructor; [|constructor]. eexists. vm_compute. reflexivity.
Defined.

(** ** The exceptions of the line buffer *)

Section BufferErrors.

Context (E : externals).




End BufferErrors.

